(** * font_tracer: glyph outline tracing, verified over a shallow embedding

    Embeds [bezier_sampling.py] (Bernstein sampling of a Bezier arc),
    [font2vertices.py] (arc reconstruction from tagged outline points,
    contour walk, line flattening) and the [FontTracer] class of
    [font_tracer.py] (per-character dictionaries, lookups, plotting).

    Numeric model.  The source computes on numpy floating-point arrays.  Here
    every scalar is an exact rational ([Qc], canonical fractions with
    Leibniz equality), so the statements below are about the arithmetic the
    code performs, not about its rounding; the only divisions are by
    [num - 1] in [np.linspace], by 2 for a midpoint and by the vertical
    advance, and division by zero is not modelled.  Python integers used as indices
    are [Z] (they do go negative: [idx - 1] at [idx = 0]), lengths and sample
    counts are [nat]. *)

From Stdlib Require Import ZArith List Lia Bool.
From Stdlib Require Import QArith Qcanon.
From Stdlib Require Ascii.
Import ListNotations.

Local Open Scope Z_scope.

(* ================================================================== *)
(** * Python exceptions and sequence access *)

(** Modelled from the spec: the tag constants [freetype.FT_Curve_Tag_On],
    [FT_Curve_Tag_Conic] and [FT_Curve_Tag_Cubic] belong to the freetype
    binding, which is not part of the sources.  The code only compares the
    tag of a point (the value of [freetype.FT_CURVE_TAG]) with them for
    equality, so they are three distinct constructors (OnCurve, OffConic and
    OffCubic in the spec); [FT_Curve_Tag_Other] stands for any tag value equal
    to none of the three. *)
Inductive FT_Curve_Tag : Set :=
| FT_Curve_Tag_On
| FT_Curve_Tag_Conic
| FT_Curve_Tag_Cubic
| FT_Curve_Tag_Other.

Definition tag_eqb (a b : FT_Curve_Tag) : bool :=
  match a, b with
  | FT_Curve_Tag_On, FT_Curve_Tag_On
  | FT_Curve_Tag_Conic, FT_Curve_Tag_Conic
  | FT_Curve_Tag_Cubic, FT_Curve_Tag_Cubic
  | FT_Curve_Tag_Other, FT_Curve_Tag_Other => true
  | _, _ => false
  end.

(** The exceptions the traced code can raise.  [ValueError idx tag] is the
    [ValueError] of [trace_conic_off_points], whose message is built from the
    traced index [idx] ("While tracing point index %d...") and the offending
    neighbour's tag. *)
Inductive exn : Set :=
| IndexError
| ValueError (idx : Z) (tag : FT_Curve_Tag).

Inductive result (A : Type) : Type :=
| Ok (a : A)
| Raise (e : exn).
Arguments Ok {A} a.
Arguments Raise {A} e.

Definition bind {A B} (r : result A) (f : A -> result B) : result B :=
  match r with
  | Ok a => f a
  | Raise e => Raise e
  end.

Notation "x <- r ;; k" := (bind r (fun x => k))
  (at level 61, r at next level, right associativity).

Definition len {A} (l : list A) : Z := Z.of_nat (length l).

(** [l[i]] for a Python list or the first axis of a numpy array: a negative
    index counts from the end, anything outside [-len, len) raises
    [IndexError]. *)
Definition py_index {A} (l : list A) (i : Z) : result A :=
  let j := if i <? 0 then i + len l else i in
  if (j <? 0) || (len l <=? j) then Raise IndexError
  else match nth_error l (Z.to_nat j) with
       | Some a => Ok a
       | None => Raise IndexError
       end.

(** Bound normalisation of a slice [l[lo:hi]] (step 1): negative bounds count
    from the end, then both are clamped to [0, len]. *)
Definition slice_bound (n i : Z) : Z :=
  let j := if i <? 0 then i + n else i in
  Z.max 0 (Z.min n j).

(** [l[lo:hi]].  Never raises. *)
Definition py_slice {A} (l : list A) (lo hi : Z) : list A :=
  let a := slice_bound (len l) lo in
  let b := slice_bound (len l) hi in
  firstn (Z.to_nat (b - a)) (skipn (Z.to_nat a) l).

(* ================================================================== *)
(** * Points *)

Local Open Scope Qc_scope.

(** A row of an (N,2) array. *)
Definition Point : Type := (Qc * Qc)%type.

Definition pzero : Point := (0, 0).
Definition padd (p q : Point) : Point := (fst p + fst q, snd p + snd q).
Definition pscale (a : Qc) (p : Point) : Point := (a * fst p, a * snd p).
(** [p / d] on a row. *)
Definition pdiv (p : Point) (d : Qc) : Point := (fst p / d, snd p / d).

(** [a.reshape(-1)] of an (N,2) array: the rows laid out one after another. *)
Fixpoint reshape_flat (a : list Point) : list Qc :=
  match a with
  | [] => []
  | (x, y) :: r => x :: y :: reshape_flat r
  end.

Definition Qc_of_nat (n : nat) : Qc := Q2Qc (inject_Z (Z.of_nat n)).

(* ================================================================== *)
(** * bezier_sampling.py *)

(** [scipy.special.comb(n, i)]: the binomial coefficient, 0 when [i > n]. *)
Fixpoint comb (n i : nat) : nat :=
  match i, n with
  | O, _ => 1
  | S _, O => 0
  | S i', S n' => comb n' i' + comb n' i
  end%nat.

(** [np.linspace(start, stop, num)]: [num] values [start + k * step] with
    [step = (stop - start) / (num - 1)], the last one overwritten by [stop]. *)
Definition linspace (start stop : Qc) (num : nat) : list Qc :=
  match num with
  | O => []
  | S O => [start]
  | S (S m) =>
      let step := (stop - start) / Qc_of_nat (S m) in
      map (fun k => Qc_of_nat k * step + start) (seq 0 (S m)) ++ [stop]
  end.

(** [bernstein_poly(i, n, t)], broadcast over the array [t]. *)
Definition bernstein_poly (i n : nat) (t : list Qc) : list Qc :=
  map (fun tk => Qc_of_nat (comb n i) * tk ^ (n - i) * (1 - tk) ^ i) t.

(** [np.transpose] of a matrix given as a list of rows of width [w]. *)
Definition transpose (w : nat) (m : list (list Qc)) : list (list Qc) :=
  map (fun k => map (fun row => nth k row 0) m) (seq 0 w).

(** One row of [np.dot(a, points)]: the linear combination of the rows of
    [points] weighted by the row [r] of [a]. *)
Fixpoint dot_row (r : list Qc) (points : list Point) : Point :=
  match r, points with
  | a :: r', p :: points' => padd (pscale a p) (dot_row r' points')
  | _, _ => pzero
  end.

Definition dot (a : list (list Qc)) (points : list Point) : list Point :=
  map (fun r => dot_row r points) a.

(** [bezier_curve(points, n_samples)].  [n_samples] is a natural number
    ([np.linspace] rejects a negative count).  For an empty [points] numpy
    degenerates to a scalar; the model follows the code for one control point
    or more. *)
Definition bezier_curve (points : list Point) (n_samples : nat) : list Point :=
  let n_points := length points in
  let t := linspace 1 0 n_samples in
  let polynomial_array :=
    map (fun i => bernstein_poly i (n_points - 1) t) (seq 0 n_points) in
  dot (transpose (length t) polynomial_array) points.

(* ================================================================== *)
(** * font2vertices.py *)

(** The two coordinates of a row, as [np.concatenate] appends them to a flat
    buffer. *)
Definition row (p : Point) : list Qc := [fst p; snd p].

(** [(a + b) / 2] on rows: the virtual on point between two off points. *)
Definition midpoint (a b : Point) : Point := pdiv (padd a b) (Qc_of_nat 2).

(** [trace_cubic_off_points(c_points, c_tags, idx, n_segments)].  The test
    [c_tags[idx_prev] == Cubic and c_tags[idx] == Cubic] short-circuits: the
    second lookup happens only when the first comparison holds. *)
Definition trace_cubic_off_points (c_points : list Point)
    (c_tags : list FT_Curve_Tag) (idx : Z) (n_segments : nat)
    : result (list Qc) :=
  let idx_prev := (idx - 1)%Z in
  let idx_next := if (idx =? len c_points - 1)%Z then 0%Z else (idx + 1)%Z in
  tag_prev <- py_index c_tags idx_prev ;;
  if tag_eqb tag_prev FT_Curve_Tag_Cubic then
    tag_idx <- py_index c_tags idx ;;
    if tag_eqb tag_idx FT_Curve_Tag_Cubic then
      p0 <- py_index c_points (idx_prev - 1)%Z ;;
      p1 <- py_index c_points idx_prev ;;
      p2 <- py_index c_points idx ;;
      p3 <- py_index c_points idx_next ;;
      Ok (reshape_flat (bezier_curve [p0; p1; p2; p3] n_segments))
    else Ok []
  else Ok [].

(** The anchor on one side of a conic off point: the neighbour itself when it
    is an on point, the middle of [c_points[idx]] and the neighbour when the
    neighbour is a conic off point, [ValueError] otherwise.  This is the
    [if / elif / else] the source writes once for [idx_prev] and once for
    [idx_next]. *)
Definition conic_anchor (c_points : list Point) (c_tags : list FT_Curve_Tag)
    (idx idx_nb : Z) : result Point :=
  tag_nb <- py_index c_tags idx_nb ;;
  if tag_eqb tag_nb FT_Curve_Tag_On then
    py_index c_points idx_nb
  else if tag_eqb tag_nb FT_Curve_Tag_Conic then
    p <- py_index c_points idx ;;
    p_nb <- py_index c_points idx_nb ;;
    Ok (midpoint p p_nb)
  else Raise (ValueError idx tag_nb).

(** [trace_conic_off_points(c_points, c_tags, idx, n_segments)]. *)
Definition trace_conic_off_points (c_points : list Point)
    (c_tags : list FT_Curve_Tag) (idx : Z) (n_segments : nat)
    : result (list Qc) :=
  let idx_prev := (idx - 1)%Z in
  let idx_next := if (idx =? len c_points - 1)%Z then 0%Z else (idx + 1)%Z in
  point_start <- conic_anchor c_points c_tags idx idx_prev ;;
  point_end <- conic_anchor c_points c_tags idx idx_next ;;
  p <- py_index c_points idx ;;
  Ok (reshape_flat (bezier_curve [point_start; p; point_end] n_segments)).

(** [glyph.outline]: the points, their tags (already passed through
    [FT_CURVE_TAG]) and the index of the last point of each contour.
    [glyph.metrics]: only [vertAdvance] is read. *)
Record Outline : Type := mkOutline {
  points : list Point;
  tags : list FT_Curve_Tag;
  contours : list Z
}.

Record Metrics : Type := mkMetrics {
  vertAdvance : Qc
}.

Record Glyph : Type := mkGlyph {
  outline : Outline;
  metrics : Metrics
}.

(** The body of [for i in range(len(c_points))], run over the indices [idxs]
    with the buffer [c_draw_points] built so far.  A tag that is none of the
    three known ones falls through the [if / elif / elif] and adds nothing. *)
Fixpoint walk_points (c_points : list Point) (c_tags : list FT_Curve_Tag)
    (n_segments : nat) (idxs : list nat) (c_draw_points : list Qc)
    : result (list Qc) :=
  match idxs with
  | [] => Ok c_draw_points
  | i :: rest =>
      let i := Z.of_nat i in
      tag <- py_index c_tags i ;;
      if tag_eqb tag FT_Curve_Tag_On then
        p <- py_index c_points i ;;
        walk_points c_points c_tags n_segments rest (c_draw_points ++ row p)
      else if tag_eqb tag FT_Curve_Tag_Conic then
        sampled_pts <- trace_conic_off_points c_points c_tags i n_segments ;;
        walk_points c_points c_tags n_segments rest (c_draw_points ++ sampled_pts)
      else if tag_eqb tag FT_Curve_Tag_Cubic then
        sampled_pts <- trace_cubic_off_points c_points c_tags i n_segments ;;
        walk_points c_points c_tags n_segments rest (c_draw_points ++ sampled_pts)
      else
        walk_points c_points c_tags n_segments rest c_draw_points
  end.

(** The body of [for c in contours], with the loop state [prev_c] and
    [c_draw_contours]. *)
Fixpoint walk_contours (g : Glyph) (n_segments : nat) (cs : list Z)
    (prev_c : Z) (c_draw_contours : list (list Qc))
    : result (list (list Qc)) :=
  match cs with
  | [] => Ok c_draw_contours
  | c :: rest =>
      let c_points := py_slice (points (outline g)) (prev_c + 1) (c + 1) in
      let c_tags := py_slice (tags (outline g)) (prev_c + 1) (c + 1) in
      c_draw_points <-
        walk_points c_points c_tags n_segments (seq 0 (length c_points)) [] ;;
      let c_draw_points :=
        map (fun x => x / vertAdvance (metrics g)) c_draw_points in
      walk_contours g n_segments rest c (c_draw_contours ++ [c_draw_points])
  end.

(** [glyph2vertices(glyph, n_segments)]. *)
Definition glyph2vertices (glyph : Glyph) (n_segments : nat)
    : result (list (list Qc)) :=
  walk_contours glyph n_segments (contours (outline glyph)) (-1) [].

(** [range(0, n, 2)]. *)
Definition range_step2 (n : nat) : list nat :=
  map (fun k => (2 * k)%nat) (seq 0 (Nat.div2 (S n))).

(** The slice appended by the "Close the contour" step. *)
Definition closing_slice (contour : list Qc) : list Qc :=
  if negb (Z.eqb (len contour mod 2) 0) then py_slice contour (-2) 2
  else py_slice contour 0 2.

(** The lines of one contour: the inner loop, then the closing step. *)
Definition contour_lines (contour : list Qc) : list Qc :=
  flat_map (fun i => py_slice contour (Z.of_nat i) (Z.of_nat i + 4))
           (range_step2 (length contour))
  ++ closing_slice contour.

(** [vertices2lines(contours)].  [lines] only ever grows by concatenation, so
    the loop is a fold that appends each contour's lines. *)
Definition vertices2lines (contours : list (list Qc)) : list Qc :=
  fold_left (fun lines contour => lines ++ contour_lines contour) contours [].

(* ================================================================== *)
(** * Reference definitions

    What the specification says the code computes, written independently of
    the code above, to be compared with it. *)

Definition psum (l : list Point) : Point := fold_right padd pzero l.

(** The Bernstein-basis evaluation at parameter [u] of the Bezier curve with
    control points [P_0 .. P_(n-1)]:
    the sum over [i] of [C(n-1, i) * u^i * (1-u)^(n-1-i) * P_i]. *)
Definition bernstein_point (P : list Point) (u : Qc) : Point :=
  let n := length P in
  psum (map (fun i => pscale (Qc_of_nat (comb (n - 1) i) * u ^ i
                              * (1 - u) ^ (n - 1 - i))
                             (nth i P pzero))
            (seq 0 n)).

(** Neighbours in a cyclic contour of [n] points: the point before the first
    is the last, the point after the last is the first. *)
Definition cyc_prev (n i : nat) : nat :=
  match i with O => (n - 1)%nat | S j => j end.

Definition cyc_next (n i : nat) : nat :=
  if (S i =? n)%nat then O else S i.

(** The anchor of a conic arc on the side of the neighbour [nb] (tagged [t])
    of the off point [p]: the neighbour itself when it is on the curve, the
    middle [(nb + p) / 2] when it is a conic off point; any other tag is
    unsupported. *)
Inductive anchor_case : Type :=
| Anchor (a : Point)
| Unsupported (t : FT_Curve_Tag).

Definition spec_anchor (p : Point) (t : FT_Curve_Tag) (nb : Point)
    : anchor_case :=
  match t with
  | FT_Curve_Tag_On => Anchor nb
  | FT_Curve_Tag_Conic => Anchor (pdiv (padd nb p) (Qc_of_nat 2))
  | _ => Unsupported t
  end.

Definition anchor_resolved (t : FT_Curve_Tag) (nb p a : Point) : Prop :=
  (t = FT_Curve_Tag_On /\ a = nb)
  \/ (t = FT_Curve_Tag_Conic /\ a = pdiv (padd nb p) (Qc_of_nat 2)).

(** The tags a conic off point may have next to it. *)
Definition supported (t : FT_Curve_Tag) : bool :=
  match t with
  | FT_Curve_Tag_On | FT_Curve_Tag_Conic => true
  | _ => false
  end.

(** What the walk adds for the point at index [i]: the point itself when on
    the curve, the sampled arc when off. *)
Definition emit (c_points : list Point) (c_tags : list FT_Curve_Tag)
    (n_segments : nat) (i : nat) : result (list Qc) :=
  tag <- py_index c_tags (Z.of_nat i) ;;
  match tag with
  | FT_Curve_Tag_On => p <- py_index c_points (Z.of_nat i) ;; Ok (row p)
  | FT_Curve_Tag_Conic =>
      trace_conic_off_points c_points c_tags (Z.of_nat i) n_segments
  | FT_Curve_Tag_Cubic =>
      trace_cubic_off_points c_points c_tags (Z.of_nat i) n_segments
  | FT_Curve_Tag_Other => Ok []
  end.

(** Concatenation in order, stopping at the first exception. *)
Fixpoint collect (rs : list (result (list Qc))) : result (list Qc) :=
  match rs with
  | [] => Ok []
  | r :: rest => x <- r ;; xs <- collect rest ;; Ok (x ++ xs)
  end.

(** The coordinates of one contour before normalisation, in walk order. *)
Definition accumulate (c_points : list Point) (c_tags : list FT_Curve_Tag)
    (n_segments : nat) : result (list Qc) :=
  collect (map (emit c_points c_tags n_segments) (seq 0 (length c_points))).

(** The points and tags of each contour: contour [j] runs from the index after
    the end of contour [j-1] to its own end index, inclusive. *)
Fixpoint contour_slices (pts : list Point) (tgs : list FT_Curve_Tag)
    (cs : list Z) (prev_c : Z) : list (list Point * list FT_Curve_Tag) :=
  match cs with
  | [] => []
  | c :: rest =>
      (py_slice pts (prev_c + 1) (c + 1), py_slice tgs (prev_c + 1) (c + 1))
      :: contour_slices pts tgs rest c
  end.

(** The segments of a closed polyline: segment [k] joins vertex [k] to vertex
    [k + 1], the last one joins the last vertex to vertex 0. *)
Definition closed_segments (pts : list Point) : list Point :=
  flat_map (fun k => [nth k pts pzero; nth (S k mod length pts) pts pzero])
           (seq 0 (length pts)).

(* ================================================================== *)
(** * Example data *)

Definition pt (x y : Z) : Point := (Q2Qc (inject_Z x), Q2Qc (inject_Z y)).

(** The unit square of the round-trip scenario: four on points, one contour
    ending at index 3, vertical advance 1. *)
Definition square_points : list Point := [pt 0 0; pt 0 1; pt 1 1; pt 1 0].

Definition square_glyph : Glyph :=
  mkGlyph (mkOutline square_points
             [FT_Curve_Tag_On; FT_Curve_Tag_On; FT_Curve_Tag_On; FT_Curve_Tag_On]
             [3%Z])
          (mkMetrics 1).

(** An on point, a conic off point, an on point: one quadratic arc. *)
Definition arc_points : list Point := [pt 0 0; pt 1 2; pt 4 0].
Definition arc_tags : list FT_Curve_Tag :=
  [FT_Curve_Tag_On; FT_Curve_Tag_Conic; FT_Curve_Tag_On].

(** Two successive conic off points between on points. *)
Definition conic2_points : list Point := [pt 0 0; pt 2 4; pt 6 4; pt 8 0].
Definition conic2_tags : list FT_Curve_Tag :=
  [FT_Curve_Tag_On; FT_Curve_Tag_Conic; FT_Curve_Tag_Conic; FT_Curve_Tag_On].

(** An on point, a pair of cubic off points, an on point. *)
Definition cubic_points : list Point := [pt 0 0; pt 1 3; pt 3 3; pt 4 0].
Definition cubic_tags : list FT_Curve_Tag :=
  [FT_Curve_Tag_On; FT_Curve_Tag_Cubic; FT_Curve_Tag_Cubic; FT_Curve_Tag_On].

(** Three cubic off points in a row, then an on point. *)
Definition cubic3_tags : list FT_Curve_Tag :=
  [FT_Curve_Tag_Cubic; FT_Curve_Tag_Cubic; FT_Curve_Tag_Cubic; FT_Curve_Tag_On].

(** A conic off point next to a cubic off point. *)
Definition mixed_tags : list FT_Curve_Tag :=
  [FT_Curve_Tag_Cubic; FT_Curve_Tag_Conic; FT_Curve_Tag_On; FT_Curve_Tag_On].

(** The same arc as a glyph of one contour, with vertical advance 2. *)
Definition arc_glyph : Glyph :=
  mkGlyph (mkOutline arc_points arc_tags [2%Z]) (mkMetrics (Qc_of_nat 2)).

(** A cubic off point with no cubic neighbour. *)
Definition isolated_tags : list FT_Curve_Tag :=
  [FT_Curve_Tag_On; FT_Curve_Tag_Cubic; FT_Curve_Tag_On; FT_Curve_Tag_On].

(** A triangle: a traced contour with an odd number of points. *)
Definition triangle_points : list Point := [pt 0 0; pt 1 0; pt 0 1].

(* ================================================================== *)
(** * font_tracer.py *)

Local Open Scope Z_scope.

(** A Python [dict] keyed by characters, in insertion order.  Assigning to a
    key that is present replaces its value in place. *)
Definition dict (V : Type) : Type := list (Ascii.ascii * V).

(** [d.get(k)]: [None] stands for a missing key. *)
Fixpoint dict_get {V} (d : dict V) (k : Ascii.ascii) : option V :=
  match d with
  | [] => None
  | (k', v) :: rest => if Ascii.eqb k' k then Some v else dict_get rest k
  end.

(** [d[k] = v]. *)
Fixpoint dict_set {V} (d : dict V) (k : Ascii.ascii) (v : V) : dict V :=
  match d with
  | [] => [(k, v)]
  | (k', v') :: rest =>
      if Ascii.eqb k' k then (k', v) :: rest else (k', v') :: dict_set rest k v
  end.

(** What [load_font] reads from [face.glyph] after [face.load_char(char)]:
    the glyph itself (outline and metrics) and [glyph.advance.x].  The face
    belongs to the freetype binding; it is modelled as a function from the
    character to this record. *)
Record GlyphSlot : Type := mkGlyphSlot {
  slot_glyph : Glyph;
  advance_x : Qc
}.

(** The three dictionaries of a [FontTracer] object ([font_path] and [face]
    hold the external font and are not part of the model). *)
Record FontTracer : Type := mkFontTracer {
  traced_vertices : dict (list (list Qc));
  traced_lines : dict (list Qc);
  glyphs_advances : dict (Qc * Qc)
}.

(** [FontTracer()]. *)
Definition FontTracer_init : FontTracer := mkFontTracer [] [] [].

(** The exceptions of this layer: one raised while tracing, the division of
    two Python integers by zero, a missing dictionary key. *)
Inductive tracer_exn : Set :=
| TraceError (e : exn)
| ZeroDivisionError
| KeyError (c : Ascii.ascii).

(** The body of [for char in string.printable] in [load_font].  The object is
    mutated statement by statement, so an exception leaves behind what was
    stored before it: nothing for this character when tracing raises, its
    vertices and lines when the advance division raises (with a zero vertical
    advance those stored arrays hold numpy's inf or nan, which the model does
    not represent). *)
Definition load_char (face : Ascii.ascii -> GlyphSlot) (n_segments : nat)
    (self : FontTracer) (char : Ascii.ascii)
    : FontTracer * option tracer_exn :=
  let glyph := face char in
  match glyph2vertices (slot_glyph glyph) n_segments with
  | Raise e => (self, Some (TraceError e))
  | Ok vertices =>
      let self1 :=
        mkFontTracer (dict_set (traced_vertices self) char vertices)
                     (dict_set (traced_lines self) char (vertices2lines vertices))
                     (glyphs_advances self) in
      let v := vertAdvance (metrics (slot_glyph glyph)) in
      if Qc_eq_bool v 0 then (self1, Some ZeroDivisionError)
      else
        (mkFontTracer (traced_vertices self1) (traced_lines self1)
           (dict_set (glyphs_advances self1) char ((advance_x glyph / v)%Qc, 1%Qc)),
         None)
  end.

Fixpoint load_chars (face : Ascii.ascii -> GlyphSlot) (n_segments : nat)
    (chars : list Ascii.ascii) (self : FontTracer)
    : FontTracer * option tracer_exn :=
  match chars with
  | [] => (self, None)
  | char :: rest =>
      match load_char face n_segments self char with
      | (self', None) => load_chars face n_segments rest self'
      | stopped => stopped
      end
  end.

(** [load_font(font_path, n_segments)]: the final object and the exception,
    if any.  [printable] is Python's [string.printable], a constant of the
    standard library taken as a parameter. *)
Definition load_font (face : Ascii.ascii -> GlyphSlot)
    (printable : list Ascii.ascii) (n_segments : nat) (self : FontTracer)
    : FontTracer * option tracer_exn :=
  load_chars face n_segments printable self.

(** [get_char_vertices(char)]: [np.concatenate] of the character's contours,
    the empty array for an unknown character or one without contours. *)
Definition get_char_vertices (self : FontTracer) (char : Ascii.ascii) : list Qc :=
  match dict_get (traced_vertices self) char with
  | Some contours => if 0 <? len contours then concat contours else []
  | None => []
  end.

(** [get_char_n_vertices(char)]: [len(...) / 2], a true division. *)
Definition get_char_n_vertices (self : FontTracer) (char : Ascii.ascii) : Qc :=
  (Qc_of_nat (length (get_char_vertices self char)) / Qc_of_nat 2)%Qc.

(** [get_char_lines(char)]. *)
Definition get_char_lines (self : FontTracer) (char : Ascii.ascii) : list Qc :=
  match dict_get (traced_lines self) char with
  | Some lines => lines
  | None => []
  end.

(** [get_char_advance(char)]: a plain subscript, so a missing key raises. *)
Definition get_char_advance (self : FontTracer) (char : Ascii.ascii)
    : (Qc * Qc) + tracer_exn :=
  match dict_get (glyphs_advances self) char with
  | Some a => inl a
  | None => inr (KeyError char)
  end.

Definition get_char_x_advance (self : FontTracer) (char : Ascii.ascii)
    : Qc + tracer_exn :=
  match get_char_advance self char with
  | inl a => inl (fst a)
  | inr e => inr e
  end.

Definition get_char_y_advance (self : FontTracer) (char : Ascii.ascii)
    : Qc + tracer_exn :=
  match get_char_advance self char with
  | inl a => inl (snd a)
  | inr e => inr e
  end.

(** The character ["\n"]. *)
Definition newline : Ascii.ascii := Ascii.ascii_of_nat 10.

(** [range(0, stop, 4)], for any integer [stop]. *)
Definition range_step4 (stop : Z) : list nat :=
  map (fun k => (4 * k)%nat) (seq 0 (Z.to_nat ((stop + 3) / 4))).

(** The two arguments of one [axis.plot(xs, ys)] call. *)
Definition PlotCall : Type := (list Qc * list Qc)%type.

(** The inner loop of [plot]: one call per index of
    [range(0, len(lines) - 3, 4)].  The four subscripts are within the array
    for each such index, so they are read with [nth]. *)
Definition draw_lines (lines : list Qc) (pos_x pos_y : Qc) : list PlotCall :=
  map (fun i =>
         ([(nth i lines 0 + pos_x)%Qc; (nth (i + 2) lines 0 + pos_x)%Qc],
          [(nth (i + 1) lines 0 + pos_y)%Qc; (nth (i + 3) lines 0 + pos_y)%Qc]))
      (range_step4 (len lines - 3)).

(** The state of [plot]: the pen and the calls made on [axis] so far. *)
Record PlotState : Type := mkPlotState {
  pos_x : Qc;
  pos_y : Qc;
  drawn : list PlotCall
}.

(** The loop of [plot] from a given state. *)
Fixpoint plot_loop (self : FontTracer) (glyphs : list Ascii.ascii)
    (st : PlotState) : PlotState * option tracer_exn :=
  match glyphs with
  | [] => (st, None)
  | c :: rest =>
      if Ascii.eqb c newline then
        match get_char_y_advance self c with
        | inr e => (st, Some e)
        | inl dy => plot_loop self rest (mkPlotState 0 (pos_y st - dy) (drawn st))
        end
      else
        let lines := get_char_lines self c in
        let st1 := mkPlotState (pos_x st) (pos_y st)
                     (drawn st ++ draw_lines lines (pos_x st) (pos_y st)) in
        match get_char_x_advance self c with
        | inr e => (st1, Some e)
        | inl dx => plot_loop self rest
                      (mkPlotState (pos_x st1 + dx) (pos_y st1) (drawn st1))
        end
  end.

(** [plot(glyphs, axis)]: the calls made on [axis] and the exception, if
    any. *)
Definition plot (self : FontTracer) (glyphs : list Ascii.ascii)
    : list PlotCall * option tracer_exn :=
  let r := plot_loop self glyphs (mkPlotState 0 0 []) in
  (drawn (fst r), snd r).

(* ================================================================== *)
(** * Reference definitions for the whole pipeline *)


(** The weights the sampler gives to [n] control points at parameter [t]. *)
Definition bernstein_weights (n : nat) (t : Qc) : list Qc :=
  map (fun i => (Qc_of_nat (comb (n - 1) i) * t ^ (n - 1 - i) * (1 - t) ^ i)%Qc)
      (seq 0 n).

Definition result_map {A B} (f : A -> B) (r : result A) : result B :=
  match r with Ok a => Ok (f a) | Raise e => Raise e end.

(** [f] on every element in order, stopping at the first exception. *)
Fixpoint traverse {A B} (f : A -> result B) (l : list A) : result (list B) :=
  match l with
  | [] => Ok []
  | x :: rest => y <- f x ;; ys <- traverse f rest ;; Ok (y :: ys)
  end.


(** Division of every coordinate by the vertical advance. *)
Definition normalize (v : Qc) (contour : list Qc) : list Qc :=
  map (fun x => (x / v)%Qc) contour.

(** The points and tags of the contours of a glyph. *)
Definition glyph_slices (g : Glyph) : list (list Point * list FT_Curve_Tag) :=
  contour_slices (points (outline g)) (tags (outline g)) (contours (outline g)) (-1).



(** The [axis.plot] calls for a list of segment end points, two per segment,
    with the pen at [(px, py)]. *)
Fixpoint segment_calls (px py : Qc) (l : list Point) : list PlotCall :=
  match l with
  | a :: b :: rest =>
      ([(fst a + px)%Qc; (fst b + px)%Qc], [(snd a + py)%Qc; (snd b + py)%Qc])
      :: segment_calls px py rest
  | _ => []
  end.

(** A character [load_font] gets through: its glyph traces without an
    exception and its vertical advance is not zero. *)
Definition loadable (face : Ascii.ascii -> GlyphSlot) (n_segments : nat)
    (c : Ascii.ascii) : Prop :=
  (exists v, glyph2vertices (slot_glyph (face c)) n_segments = Ok v)
  /\ vertAdvance (metrics (slot_glyph (face c))) <> 0%Qc.

Definition has_advance (self : FontTracer) (c : Ascii.ascii) : bool :=
  match dict_get (glyphs_advances self) c with
  | Some _ => true
  | None => false
  end.

(* ================================================================== *)
(** * Example data for the tracer *)

(** A face with two glyphs: the square for the newline, the arc for every
    other character. *)
Definition demo_face (c : Ascii.ascii) : GlyphSlot :=
  if Ascii.eqb c newline then mkGlyphSlot square_glyph 0
  else mkGlyphSlot arc_glyph (Qc_of_nat 3).

Definition letter_a : Ascii.ascii := Ascii.ascii_of_nat 97.
Definition letter_b : Ascii.ascii := Ascii.ascii_of_nat 98.
Definition demo_printable : list Ascii.ascii := [letter_a; newline].

Definition demo_tracer : FontTracer :=
  fst (load_font demo_face demo_printable 5 FontTracer_init).

(** The arc glyph before normalisation. *)
Definition arc_traced : list Qc :=
  row (pt 0 0) ++ reshape_flat (bezier_curve arc_points 5) ++ row (pt 4 0).

(** A glyph whose conic off point sits next to a cubic off point. *)
Definition broken_glyph : Glyph :=
  mkGlyph (mkOutline cubic_points mixed_tags [3%Z]) (mkMetrics 1).

Definition broken_face (c : Ascii.ascii) : GlyphSlot :=
  if Ascii.eqb c letter_b then mkGlyphSlot broken_glyph 1
  else mkGlyphSlot arc_glyph (Qc_of_nat 3).

Local Open Scope Qc_scope.

(* ================================================================== *)
(** * The definitions at work *)

(** Case analysis on a computation bound in the goal (one that is not itself
    a [bind]): continue with its value, the exception case being closed by
    [tac]. *)
Ltac bind_case tac :=
  match goal with
  | |- context [bind ?r _] =>
      lazymatch r with
      | bind _ _ => fail
      | _ => let E := fresh "E" in
             destruct r eqn:E; cbn [bind]; [|solve [tac]]
      end
  end.

(** The quadratic arc of [arc_points] at five samples: the two anchors and
    the points of the closed form at u = 1/4, 1/2, 3/4. *)
Example bezier_curve_arc_samples :
  map (fun p : Point => (this (fst p), this (snd p))) (bezier_curve arc_points 5)
  = [(0, 0); (5 # 8, 3 # 4); (3 # 2, 1); (21 # 8, 3 # 4); (4, 0)]%Q.
Proof. vm_compute. reflexivity. Qed.

Example linspace_samples :
  map this (linspace 1 0 5) = [1; 3 # 4; 1 # 2; 1 # 4; 0]%Q.
Proof. vm_compute. reflexivity. Qed.

(** Slices clamp their bounds; [contour[-2:2]] keeps something only on very
    short buffers. *)
Example py_slice_samples :
  py_slice [1; 2; 3; 4; 5]%Z 3 7 = [4; 5]%Z
  /\ py_slice [1; 2; 3; 4; 5]%Z (-2) 2 = []
  /\ py_slice [1; 2; 3]%Z (-2) 2 = [2]%Z.
Proof. repeat split. Qed.

(** A contour of one point tagged cubic: the point is its own predecessor, so
    the pair test passes and [c_points[idx_prev - 1]] is out of range. *)
Example trace_cubic_single p n :
  trace_cubic_off_points [p] [FT_Curve_Tag_Cubic] 0 n = Raise IndexError.
Proof. reflexivity. Qed.

(** A tag list shorter than the point list makes the walk raise. *)
Example glyph2vertices_short_tags :
  glyph2vertices (mkGlyph (mkOutline square_points [FT_Curve_Tag_On] [3%Z])
                          (mkMetrics 1)) 5
  = Raise IndexError.
Proof. reflexivity. Qed.

(* ================================================================== *)
(** * Sampling: [bezier_curve] against the Bernstein formula *)

Local Open Scope Qc_scope.

Lemma Qc_of_nat_0 : Qc_of_nat 0 = 0.
Proof. apply Qc_is_canon. reflexivity. Qed.

Lemma Qc_of_nat_S n : Qc_of_nat (S n) = Qc_of_nat n + 1.
Proof.
  apply Qc_is_canon. unfold Qc_of_nat, Qcplus, Q2Qc. cbn [this].
  rewrite !Qred_correct. rewrite Nat2Z.inj_succ. unfold Z.succ.
  rewrite inject_Z_plus. reflexivity.
Qed.

Lemma Qc_of_nat_neq0 n : (0 < n)%nat -> Qc_of_nat n <> 0.
Proof.
  intros Hn H. apply (f_equal this) in H. unfold Qc_of_nat, Q2Qc in H. cbn [this] in H.
  assert (E : Qred (inject_Z (Z.of_nat n)) == 0%Q) by (rewrite H; reflexivity).
  rewrite Qred_correct in E. unfold Qeq, inject_Z in E. cbn in E. lia.
Qed.

Lemma nth_map_lt {A B} (f : A -> B) (l : list A) k d d' :
  (k < length l)%nat -> nth k (map f l) d = f (nth k l d').
Proof.
  revert k. induction l as [|x l IH]; intros [|k] H; cbn in *; try lia; auto.
  apply IH. lia.
Qed.

Lemma linspace_length a b n : length (linspace a b n) = n.
Proof.
  destruct n as [|[|m]]; cbn [linspace length]; try reflexivity.
  rewrite length_app, length_map, length_seq. cbn. lia.
Qed.

Lemma linspace_nth n k :
  (2 <= n)%nat -> (k < n)%nat ->
  nth k (linspace 1 0 n) 0 = 1 - Qc_of_nat k / Qc_of_nat (n - 1).
Proof.
  intros Hn Hk. destruct n as [|[|m]]; try lia.
  replace (S (S m) - 1)%nat with (S m) by lia.
  assert (Hm : Qc_of_nat (S m) <> 0) by (apply Qc_of_nat_neq0; lia).
  unfold linspace.
  destruct (Nat.eq_dec k (S m)) as [->|Hne].
  - rewrite app_nth2; rewrite length_map, length_seq; [|lia].
    rewrite Nat.sub_diag. cbn [nth]. field. exact Hm.
  - rewrite app_nth1 by (rewrite length_map, length_seq; lia).
    rewrite (nth_map_lt _ _ _ _ 0%nat) by (rewrite length_seq; lia).
    rewrite seq_nth by lia. cbn [Nat.add]. field. exact Hm.
Qed.

Lemma point_eq (p r : Point) : fst p = fst r -> snd p = snd r -> p = r.
Proof. destruct p, r; cbn; intros -> ->; reflexivity. Qed.

Lemma padd_pzero_l p : padd pzero p = p.
Proof. apply point_eq; cbn; ring. Qed.

Lemma padd_pzero_r p : padd p pzero = p.
Proof. apply point_eq; cbn; ring. Qed.

Lemma padd_comm p r : padd p r = padd r p.
Proof. apply point_eq; cbn; ring. Qed.

Lemma pscale_0 p : pscale 0 p = pzero.
Proof. apply point_eq; cbn; ring. Qed.

Lemma pscale_1 p : pscale 1 p = p.
Proof. apply point_eq; cbn; ring. Qed.

Lemma bezier_curve_length P s : length (bezier_curve P s) = s.
Proof.
  unfold bezier_curve, dot, transpose.
  rewrite !length_map, length_seq. apply linspace_length.
Qed.

(** Row [k] of the sampled curve is the combination of the control points
    weighted by the Bernstein polynomials at the [k]-th parameter. *)
Lemma bezier_curve_nth P s k :
  (k < s)%nat ->
  nth k (bezier_curve P s) pzero =
  dot_row (map (fun i => Qc_of_nat (comb (length P - 1) i)
                         * nth k (linspace 1 0 s) 0 ^ (length P - 1 - i)
                         * (1 - nth k (linspace 1 0 s) 0) ^ i)
               (seq 0 (length P))) P.
Proof.
  intros Hk. unfold bezier_curve, dot, transpose.
  rewrite (nth_map_lt _ _ _ _ []) by (rewrite length_map, length_seq, linspace_length; exact Hk).
  rewrite (nth_map_lt _ _ _ _ 0%nat) by (rewrite length_seq, linspace_length; exact Hk).
  rewrite seq_nth by (rewrite linspace_length; exact Hk). cbn [Nat.add].
  rewrite map_map. f_equal. apply map_ext. intros i.
  unfold bernstein_poly.
  rewrite (nth_map_lt _ _ _ _ 0) by (rewrite linspace_length; exact Hk).
  reflexivity.
Qed.

Lemma dot_row_seq (f : nat -> Qc) P a :
  dot_row (map f (seq a (length P))) P =
  psum (map (fun i => pscale (f i) (nth (i - a) P pzero)) (seq a (length P))).
Proof.
  revert a. induction P as [|p P IH]; intros a; cbn [length seq map dot_row psum fold_right].
  - reflexivity.
  - rewrite Nat.sub_diag. cbn [nth]. f_equal.
    rewrite IH. unfold psum. f_equal. apply map_ext_in. intros i Hi.
    apply in_seq in Hi. replace (i - a)%nat with (S (i - S a)) by lia. reflexivity.
Qed.

Lemma psum_single (g : nat -> Point) a m j :
  (a <= j < a + m)%nat ->
  (forall i, (a <= i < a + m)%nat -> i <> j -> g i = pzero) ->
  psum (map g (seq a m)) = g j.
Proof.
  revert a. induction m as [|m IH]; intros a Hj Hz; [lia|].
  cbn [seq map psum fold_right]. fold (psum (map g (seq (S a) m))).
  destruct (Nat.eq_dec a j) as [->|Hne].
  - assert (E : psum (map g (seq (S j) m)) = pzero).
    { clear IH Hj. assert (Hz' : forall i, (S j <= i < S j + m)%nat -> g i = pzero)
        by (intros i Hi; apply Hz; lia).
      clear Hz. revert Hz'. generalize (S j) as b. induction m as [|m IH]; intros b Hz'; [reflexivity|].
      cbn [seq map psum fold_right]. fold (psum (map g (seq (S b) m))).
      rewrite IH by (intros i Hi; apply Hz'; lia). rewrite Hz' by lia. apply padd_pzero_l. }
    rewrite E. apply padd_pzero_r.
  - rewrite Hz by lia. rewrite padd_pzero_l. apply IH; [lia|]. intros i Hi. apply Hz. lia.
Qed.

Lemma comb_gt n : forall i, (n < i)%nat -> comb n i = 0%nat.
Proof.
  induction n as [|n IH]; intros [|i] H; cbn; try lia.
  rewrite !IH by lia. reflexivity.
Qed.

Lemma comb_diag n : comb n n = 1%nat.
Proof.
  induction n as [|n IH]; cbn; [reflexivity|].
  rewrite IH, comb_gt by lia. reflexivity.
Qed.

Lemma comb_0 n : comb n 0 = 1%nat.
Proof. destruct n; reflexivity. Qed.

Lemma Qc_of_nat_1 : Qc_of_nat 1 = 1.
Proof. apply Qc_is_canon. reflexivity. Qed.

Lemma bernstein_point_0 P : (1 <= length P)%nat -> bernstein_point P 0 = nth 0 P pzero.
Proof.
  intros Hn. unfold bernstein_point.
  rewrite (psum_single _ 0 (length P) 0%nat); [| lia |].
  - rewrite comb_0, Qc_of_nat_1. replace (1 - 0) with 1 by ring. rewrite Qcpower_1.
    cbn [Qcpower]. replace (1 * 1 * 1) with 1 by ring. apply pscale_1.
  - intros i Hi Hne. rewrite Qcpower_0 by lia.
    replace (Qc_of_nat (comb (length P - 1) i) * 0 * (1 - 0) ^ (length P - 1 - i)) with 0 by ring.
    apply pscale_0.
Qed.

Lemma bernstein_point_1 P :
  (1 <= length P)%nat -> bernstein_point P 1 = nth (length P - 1) P pzero.
Proof.
  intros Hn. unfold bernstein_point.
  rewrite (psum_single _ 0 (length P) (length P - 1)%nat); [| lia |].
  - rewrite comb_diag, Qc_of_nat_1, Nat.sub_diag, Qcpower_1. cbn [Qcpower].
    replace (1 * 1 * 1) with 1 by ring. apply pscale_1.
  - intros i Hi Hne. replace (1 - 1) with 0 by ring. rewrite (Qcpower_0 (length P - 1 - i)) by lia.
    replace (Qc_of_nat (comb (length P - 1) i) * 1 ^ i * 0) with 0 by ring.
    apply pscale_0.
Qed.

Lemma bezier_curve_bernstein P s k :
  (2 <= s)%nat -> (k < s)%nat ->
  nth k (bezier_curve P s) pzero = bernstein_point P (Qc_of_nat k / Qc_of_nat (s - 1)).
Proof.
  intros Hs Hk. rewrite bezier_curve_nth by exact Hk.
  rewrite dot_row_seq. unfold bernstein_point. f_equal. apply map_ext. intros i.
  rewrite Nat.sub_0_r, linspace_nth by assumption.
  f_equal. set (u := Qc_of_nat k / Qc_of_nat (s - 1)).
  replace (1 - (1 - u)) with u by ring. ring.
Qed.

Lemma grid_unit_interval k m :
  (0 < m)%nat -> (k <= m)%nat ->
  0 <= Qc_of_nat k / Qc_of_nat m /\ Qc_of_nat k / Qc_of_nat m <= 1.
Proof.
  intros Hm Hk.
  assert (E : (this (Qc_of_nat k / Qc_of_nat m) == inject_Z (Z.of_nat k) / inject_Z (Z.of_nat m))%Q).
  { unfold Qcdiv, Qcmult, Qcinv, Qc_of_nat, Q2Qc. cbn [this].
    rewrite !Qred_correct. reflexivity. }
  assert (Hpos : (0 < inject_Z (Z.of_nat m))%Q).
  { replace 0%Q with (inject_Z 0) by reflexivity. rewrite <- Zlt_Qlt. lia. }
  unfold Qcle. rewrite E. split.
  - apply Qle_shift_div_l; [exact Hpos|]. cbn [this Q2Qc].
    rewrite Qmult_0_l. replace 0%Q with (inject_Z 0) by reflexivity.
    rewrite <- Zle_Qle. lia.
  - apply Qle_shift_div_r; [exact Hpos|]. cbn [this Q2Qc].
    rewrite Qmult_1_l. rewrite <- Zle_Qle. lia.
Qed.

Lemma bezier_curve_first P s :
  (1 <= length P)%nat -> (2 <= s)%nat ->
  nth 0 (bezier_curve P s) pzero = nth 0 P pzero.
Proof.
  intros Hn Hs. rewrite bezier_curve_bernstein by lia.
  rewrite Qc_of_nat_0. replace (0 / Qc_of_nat (s - 1)) with 0.
  - apply bernstein_point_0. exact Hn.
  - field. apply Qc_of_nat_neq0. lia.
Qed.

Lemma bezier_curve_last P s :
  (1 <= length P)%nat -> (2 <= s)%nat ->
  nth (s - 1) (bezier_curve P s) pzero = nth (length P - 1) P pzero.
Proof.
  intros Hn Hs. rewrite bezier_curve_bernstein by lia.
  replace (Qc_of_nat (s - 1) / Qc_of_nat (s - 1)) with 1.
  - apply bernstein_point_1. exact Hn.
  - field. apply Qc_of_nat_neq0. lia.
Qed.

(** C3.  For a list of at least two control points and a sample count of at
    least two, the first sampled point is exactly the first control point and
    the last sampled point is exactly the last control point. *)
Theorem bezier_curve_endpoints (P : list Point) (s : nat) :
  (2 <= length P)%nat -> (2 <= s)%nat ->
  nth_error (bezier_curve P s) 0 = nth_error P 0
  /\ nth_error (bezier_curve P s) (s - 1) = nth_error P (length P - 1).
Proof.
  intros Hn Hs.
  assert (H0 : (0 < length (bezier_curve P s))%nat)
    by (rewrite bezier_curve_length; lia).
  assert (H1 : (s - 1 < length (bezier_curve P s))%nat)
    by (rewrite bezier_curve_length; lia).
  assert (H2 : (0 < length P)%nat) by lia.
  assert (H3 : (length P - 1 < length P)%nat) by lia.
  rewrite (nth_error_nth' _ pzero H0), (nth_error_nth' _ pzero H1).
  rewrite (nth_error_nth' _ pzero H2), (nth_error_nth' _ pzero H3).
  rewrite bezier_curve_first, bezier_curve_last by lia. split; reflexivity.
Qed.

Lemma bezier_curve_endpoints_witness :
  nth_error (bezier_curve arc_points 5) 0 = nth_error arc_points 0
  /\ nth_error (bezier_curve arc_points 5) (5 - 1)
     = nth_error arc_points (length arc_points - 1).
Proof. apply (bezier_curve_endpoints arc_points 5); cbn; lia. Defined.

(** C4.  For control points [P_0 .. P_(n-1)], [n >= 2], and a sample count
    [s >= 2], the sampler returns [s] points; the [k]-th one is the Bernstein
    evaluation (sum over [i] of [C(n-1,i) * u^i * (1-u)^(n-1-i) * P_i]) at
    [u = k / (s - 1)], and these parameters run from 0 to 1 inside [0, 1]. *)
Theorem bezier_curve_bernstein_grid (P : list Point) (s : nat) :
  (2 <= length P)%nat -> (2 <= s)%nat ->
  length (bezier_curve P s) = s
  /\ (forall k, (k < s)%nat ->
        let u := Qc_of_nat k / Qc_of_nat (s - 1) in
        nth_error (bezier_curve P s) k = Some (bernstein_point P u)
        /\ 0 <= u /\ u <= 1)
  /\ Qc_of_nat 0 / Qc_of_nat (s - 1) = 0
  /\ Qc_of_nat (s - 1) / Qc_of_nat (s - 1) = 1.
Proof.
  intros Hn Hs.
  assert (Hd : Qc_of_nat (s - 1) <> 0) by (apply Qc_of_nat_neq0; lia).
  split; [apply bezier_curve_length|]. split; [|split].
  - intros k Hk u. split.
    + assert (Hk' : (k < length (bezier_curve P s))%nat)
        by (rewrite bezier_curve_length; exact Hk).
      rewrite (nth_error_nth' _ pzero Hk'). f_equal.
      apply bezier_curve_bernstein; assumption.
    + apply grid_unit_interval; lia.
  - rewrite Qc_of_nat_0. field. exact Hd.
  - field. exact Hd.
Qed.

Lemma bezier_curve_bernstein_grid_witness :
  length (bezier_curve arc_points 5) = 5%nat
  /\ nth_error (bezier_curve arc_points 5) 2
     = Some (bernstein_point arc_points (Qc_of_nat 2 / Qc_of_nat (5 - 1))).
Proof.
  destruct (bezier_curve_bernstein_grid arc_points 5) as (Hl & Hk & _);
    [cbn; lia | lia |].
  split; [exact Hl|]. apply (Hk 2%nat). lia.
Defined.

(* ================================================================== *)
(** * Arc reconstruction: [trace_conic_off_points], [trace_cubic_off_points] *)

Local Open Scope Z_scope.

Lemma py_index_nat {A} (l : list A) (k : nat) d :
  (k < length l)%nat -> py_index l (Z.of_nat k) = Ok (nth k l d).
Proof.
  intros Hk. unfold py_index, len.
  destruct (Z.ltb_spec (Z.of_nat k) 0); [lia|].
  destruct (Z.ltb_spec (Z.of_nat k) 0); [lia|].
  destruct (Z.leb_spec (Z.of_nat (length l)) (Z.of_nat k)); [lia|].
  cbn [orb]. rewrite Nat2Z.id.
  rewrite (nth_error_nth' l d Hk). reflexivity.
Qed.

Lemma py_index_neg {A} (l : list A) (i : Z) d :
  - len l <= i < 0 -> py_index l i = Ok (nth (Z.to_nat (i + len l)) l d).
Proof.
  intros Hi. unfold py_index. unfold len in *.
  destruct (Z.ltb_spec i 0); [|lia].
  destruct (Z.ltb_spec (i + Z.of_nat (length l)) 0); [lia|].
  destruct (Z.leb_spec (Z.of_nat (length l)) (i + Z.of_nat (length l))); [lia|].
  cbn [orb].
  rewrite (nth_error_nth' l d); [reflexivity | lia].
Qed.

Lemma py_index_out {A} (l : list A) (i : Z) :
  i < - len l \/ len l <= i -> py_index l i = Raise IndexError.
Proof.
  intros Hi. unfold py_index. unfold len in *.
  destruct (Z.ltb_spec i 0).
  - destruct (Z.ltb_spec (i + Z.of_nat (length l)) 0); [reflexivity | lia].
  - destruct (Z.ltb_spec i 0); [lia|].
    destruct (Z.leb_spec (Z.of_nat (length l)) i); [reflexivity | lia].
Qed.

(** [l[k - 1]] is the cyclic predecessor of position [k]. *)
Lemma py_index_prev {A} (l : list A) (k : nat) d :
  (k < length l)%nat ->
  py_index l (Z.of_nat k - 1) = Ok (nth (cyc_prev (length l) k) l d).
Proof.
  intros Hk. destruct k as [|j].
  - rewrite (py_index_neg l _ d) by (unfold len; lia).
    cbn [cyc_prev]. do 2 f_equal. unfold len. lia.
  - replace (Z.of_nat (S j) - 1) with (Z.of_nat j) by lia.
    apply py_index_nat. cbn [cyc_prev]. lia.
Qed.

(** The index the source calls [idx_next] is the cyclic successor. *)
Lemma py_index_next {A B} (l : list A) (m : list B) (k : nat) d :
  length l = length m -> (k < length l)%nat ->
  py_index l (if Z.of_nat k =? len m - 1 then 0 else Z.of_nat k + 1) =
  Ok (nth (cyc_next (length l) k) l d).
Proof.
  intros Hlen Hk. unfold cyc_next, len. rewrite <- Hlen.
  destruct (Z.eqb_spec (Z.of_nat k) (Z.of_nat (length l) - 1)) as [E|E].
  - replace (S k =? length l)%nat with true by (symmetry; apply Nat.eqb_eq; lia).
    apply (py_index_nat l 0). lia.
  - replace (S k =? length l)%nat with false by (symmetry; apply Nat.eqb_neq; lia).
    replace (Z.of_nat k + 1) with (Z.of_nat (S k)) by lia.
    apply py_index_nat. lia.
Qed.

Lemma py_index_prev2 {A} (l : list A) (k : nat) d :
  (k < length l)%nat -> (2 <= length l)%nat ->
  py_index l (Z.of_nat k - 1 - 1) =
  Ok (nth (cyc_prev (length l) (cyc_prev (length l) k)) l d).
Proof.
  intros Hk H2. destruct k as [|[|j]]; cbn [cyc_prev].
  - rewrite (py_index_neg l _ d) by (unfold len; lia).
    do 2 f_equal. unfold len. destruct (length l) as [|[|m]]; cbn [cyc_prev Nat.sub]; lia.
  - rewrite (py_index_neg l _ d) by (unfold len; lia).
    do 2 f_equal. unfold len. lia.
  - replace (Z.of_nat (S (S j)) - 1 - 1) with (Z.of_nat j) by lia.
    apply py_index_nat. lia.
Qed.

Lemma last_nth {A} (l : list A) d : last l d = nth (length l - 1) l d.
Proof.
  induction l as [|x [|y l] IH]; try reflexivity.
  change (last (x :: y :: l) d) with (last (y :: l) d). rewrite IH.
  cbn [length Nat.sub nth]. rewrite Nat.sub_0_r. reflexivity.
Qed.

Lemma spec_anchor_resolved t nb p a :
  anchor_resolved t nb p a -> spec_anchor p t nb = Anchor a.
Proof. intros [[-> ->]|[-> ->]]; reflexivity. Qed.

Lemma spec_anchor_unsupported t nb p :
  supported t = false -> spec_anchor p t nb = Unsupported t.
Proof. destruct t; cbn; congruence. Qed.

Lemma spec_anchor_supported t nb p :
  supported t = true -> exists a, spec_anchor p t nb = Anchor a.
Proof. destruct t; cbn; try discriminate; eauto. Qed.

Section Contour.

(** One contour: its points and their tags, one tag per point. *)
Variable c_points : list Point.
Variable c_tags : list FT_Curve_Tag.
Hypothesis tags_length : length c_tags = length c_points.

Local Abbreviation N := (length c_points).
Local Abbreviation tag_at k := (nth k c_tags FT_Curve_Tag_Other).
Local Abbreviation point_at k := (nth k c_points pzero).

Lemma conic_anchor_eval (idx : nat) (i_nb : Z) (nb : nat) :
  (idx < N)%nat ->
  py_index c_tags i_nb = Ok (tag_at nb) ->
  py_index c_points i_nb = Ok (point_at nb) ->
  conic_anchor c_points c_tags (Z.of_nat idx) i_nb =
  match spec_anchor (point_at idx) (tag_at nb) (point_at nb) with
  | Anchor a => Ok a
  | Unsupported t => Raise (ValueError (Z.of_nat idx) t)
  end.
Proof.
  intros Hidx Ht Hp. unfold conic_anchor. rewrite Ht. cbn [bind].
  destruct (tag_at nb); cbn [tag_eqb spec_anchor]; auto.
  rewrite (py_index_nat c_points idx pzero Hidx), Hp. cbn [bind].
  unfold midpoint. rewrite padd_comm. reflexivity.
Qed.

(** [trace_conic_off_points] at a valid index, in terms of the cyclic
    neighbours. *)
Lemma trace_conic_eval (idx n_segments : nat) :
  (idx < N)%nat ->
  let p := point_at idx in
  trace_conic_off_points c_points c_tags (Z.of_nat idx) n_segments =
  match spec_anchor p (tag_at (cyc_prev N idx)) (point_at (cyc_prev N idx)) with
  | Unsupported t => Raise (ValueError (Z.of_nat idx) t)
  | Anchor a_start =>
      match spec_anchor p (tag_at (cyc_next N idx))
                        (point_at (cyc_next N idx)) with
      | Unsupported t => Raise (ValueError (Z.of_nat idx) t)
      | Anchor a_end =>
          Ok (reshape_flat (bezier_curve [a_start; p; a_end] n_segments))
      end
  end.
Proof.
  intros Hidx p. unfold trace_conic_off_points.
  rewrite (conic_anchor_eval idx _ (cyc_prev N idx) Hidx).
  2:{ rewrite <- tags_length. apply py_index_prev. lia. }
  2:{ apply py_index_prev. exact Hidx. }
  fold p. destruct (spec_anchor p _ _) as [a_start|t]; cbn [bind]; [|reflexivity].
  rewrite (conic_anchor_eval idx _ (cyc_next N idx) Hidx).
  2:{ rewrite <- tags_length. apply py_index_next; [exact tags_length | lia]. }
  2:{ apply py_index_next; [reflexivity | exact Hidx]. }
  fold p. destruct (spec_anchor p _ _) as [a_end|t]; cbn [bind]; [|reflexivity].
  rewrite (py_index_nat c_points idx pzero Hidx). reflexivity.
Qed.

Lemma trace_cubic_empty (idx n_segments : nat) :
  (idx < N)%nat ->
  tag_at (cyc_prev N idx) <> FT_Curve_Tag_Cubic
  \/ tag_at idx <> FT_Curve_Tag_Cubic ->
  trace_cubic_off_points c_points c_tags (Z.of_nat idx) n_segments = Ok [].
Proof.
  intros Hidx Hor. unfold trace_cubic_off_points.
  rewrite (py_index_prev c_tags idx FT_Curve_Tag_Other) by lia.
  rewrite tags_length. cbn [bind].
  destruct (tag_at (cyc_prev N idx)) eqn:Ep; cbn [tag_eqb]; try reflexivity.
  rewrite (py_index_nat c_tags idx FT_Curve_Tag_Other) by lia. cbn [bind].
  destruct (tag_at idx) eqn:Ei; cbn [tag_eqb]; try reflexivity.
  destruct Hor as [H|H]; congruence.
Qed.

(** [trace_cubic_off_points] at the second point of a pair. *)
Lemma trace_cubic_eval (idx n_segments : nat) :
  (idx < N)%nat ->
  (2 <= N)%nat ->
  tag_at (cyc_prev N idx) = FT_Curve_Tag_Cubic ->
  tag_at idx = FT_Curve_Tag_Cubic ->
  trace_cubic_off_points c_points c_tags (Z.of_nat idx) n_segments =
  Ok (reshape_flat (bezier_curve
        [point_at (cyc_prev N (cyc_prev N idx));
         point_at (cyc_prev N idx);
         point_at idx;
         point_at (cyc_next N idx)] n_segments)).
Proof.
  intros Hidx H2 Hp Hi. unfold trace_cubic_off_points.
  rewrite (py_index_prev c_tags idx FT_Curve_Tag_Other) by lia.
  rewrite tags_length, Hp. cbn [bind tag_eqb].
  rewrite (py_index_nat c_tags idx FT_Curve_Tag_Other) by lia.
  rewrite Hi. cbn [bind tag_eqb].
  rewrite (py_index_prev2 c_points idx pzero Hidx H2).
  rewrite (py_index_prev c_points idx pzero Hidx).
  rewrite (py_index_nat c_points idx pzero Hidx).
  rewrite (py_index_next c_points c_points idx pzero eq_refl Hidx).
  reflexivity.
Qed.

(** C1.  At an off point [idx] of a contour (the function never reads the tag
    of [idx] itself, so the statement holds in particular when it is conic),
    the start anchor comes from the previous point: that point when it is on
    the curve, the middle [(points[idx-1] + points[idx]) / 2] when it is a
    conic off point; the end anchor comes from the next point in the same way;
    the result is the curve sampler's output for the control points
    [start anchor, points[idx], end anchor] and the given segment count. *)
Theorem trace_conic_quadratic_arc (idx n_segments : nat) (a_start a_end : Point) :
  (idx < N)%nat ->
  let p := point_at idx in
  anchor_resolved (tag_at (cyc_prev N idx)) (point_at (cyc_prev N idx)) p a_start ->
  anchor_resolved (tag_at (cyc_next N idx)) (point_at (cyc_next N idx)) p a_end ->
  trace_conic_off_points c_points c_tags (Z.of_nat idx) n_segments =
  Ok (reshape_flat (bezier_curve [a_start; p; a_end] n_segments)).
Proof.
  intros Hidx p Hs He.
  rewrite trace_conic_eval by assumption. fold p.
  rewrite (spec_anchor_resolved _ _ _ _ Hs), (spec_anchor_resolved _ _ _ _ He).
  reflexivity.
Qed.

(** C7.  At an off point [idx], when the previous or the next point has a tag
    that is neither on-curve nor conic, [trace_conic_off_points] raises the
    [ValueError] that carries [idx] and the offending tag; when both
    neighbours are on-curve or conic, it returns a value. *)
Theorem trace_conic_adjacency (idx n_segments : nat) :
  (idx < N)%nat ->
  let t_prev := tag_at (cyc_prev N idx) in
  let t_next := tag_at (cyc_next N idx) in
  (supported t_prev = false \/ supported t_next = false ->
   exists t, (t = t_prev \/ t = t_next) /\ supported t = false /\
     trace_conic_off_points c_points c_tags (Z.of_nat idx) n_segments
     = Raise (ValueError (Z.of_nat idx) t))
  /\ (supported t_prev = true -> supported t_next = true ->
      exists sampled_pts,
        trace_conic_off_points c_points c_tags (Z.of_nat idx) n_segments
        = Ok sampled_pts).
Proof.
  intros Hidx t_prev t_next.
  rewrite trace_conic_eval by assumption. fold t_prev t_next.
  set (p := point_at idx).
  set (p_prev := point_at (cyc_prev N idx)).
  set (p_next := point_at (cyc_next N idx)).
  split.
  - intros Hbad. destruct (supported t_prev) eqn:Ep.
    + destruct Hbad as [Hbad|Hbad]; [discriminate|].
      destruct (spec_anchor_supported t_prev p_prev p Ep) as [a ->].
      rewrite (spec_anchor_unsupported t_next p_next p Hbad).
      exists t_next. auto.
    + rewrite (spec_anchor_unsupported t_prev p_prev p Ep).
      exists t_prev. auto.
  - intros Hp Hn.
    destruct (spec_anchor_supported t_prev p_prev p Hp) as [a ->].
    destruct (spec_anchor_supported t_next p_next p Hn) as [b ->].
    eauto.
Qed.

(** C9.  At a cubic off point whose previous point (cyclically) is not a cubic
    off point, [trace_cubic_off_points] returns the empty array and raises
    nothing. *)
Theorem trace_cubic_isolated (idx n_segments : nat) :
  (idx < N)%nat ->
  tag_at idx = FT_Curve_Tag_Cubic ->
  tag_at (cyc_prev N idx) <> FT_Curve_Tag_Cubic ->
  trace_cubic_off_points c_points c_tags (Z.of_nat idx) n_segments = Ok [].
Proof.
  intros Hidx _ Hprev. apply trace_cubic_empty; auto.
Qed.

(** C10.  In a contour of at least two points the point before index 0 is the
    last point: at [idx = 0] [trace_conic_off_points] resolves its start
    anchor from the last point (and raises on the last point's tag when that
    is unsupported), and for a cubic pair at indices 0 and 1
    [trace_cubic_off_points] takes the last point as the control point before
    the pair. *)
Theorem previous_of_first_is_last (n_segments : nat) :
  (2 <= N)%nat ->
  let p_last := last c_points pzero in
  let t_last := last c_tags FT_Curve_Tag_Other in
  let p0 := point_at 0%nat in
  let p1 := point_at 1%nat in
  (forall a_start a_end,
      anchor_resolved t_last p_last p0 a_start ->
      anchor_resolved (tag_at 1%nat) p1 p0 a_end ->
      trace_conic_off_points c_points c_tags 0 n_segments
      = Ok (reshape_flat (bezier_curve [a_start; p0; a_end] n_segments)))
  /\ (supported t_last = false ->
      trace_conic_off_points c_points c_tags 0 n_segments
      = Raise (ValueError 0 t_last))
  /\ (tag_at 0%nat = FT_Curve_Tag_Cubic ->
      tag_at 1%nat = FT_Curve_Tag_Cubic ->
      trace_cubic_off_points c_points c_tags 1 n_segments
      = Ok (reshape_flat (bezier_curve
              [p_last; p0; p1; point_at (cyc_next N 1)] n_segments))).
Proof.
  intros H2 p_last t_last p0 p1.
  assert (Hprev : cyc_prev N 0 = (N - 1)%nat) by reflexivity.
  assert (Hnext : cyc_next N 0 = 1%nat).
  { unfold cyc_next. destruct (Nat.eqb_spec 1 N); [lia|reflexivity]. }
  assert (Hpl : p_last = point_at (N - 1)%nat) by apply last_nth.
  assert (Htl : t_last = tag_at (N - 1)%nat)
    by (unfold t_last; rewrite last_nth, tags_length; reflexivity).
  split; [|split].
  - intros a_start a_end Hs He.
    change 0 with (Z.of_nat 0).
    rewrite trace_conic_eval by lia.
    rewrite Hprev, Hnext, <- Hpl, <- Htl. fold p0 p1.
    rewrite (spec_anchor_resolved _ _ _ _ Hs), (spec_anchor_resolved _ _ _ _ He).
    reflexivity.
  - intros Hbad. change 0 with (Z.of_nat 0).
    rewrite trace_conic_eval by lia.
    rewrite Hprev, <- Hpl, <- Htl.
    rewrite (spec_anchor_unsupported _ _ _ Hbad). reflexivity.
  - intros Ht0 Ht1. change 1 with (Z.of_nat 1).
    rewrite trace_cubic_eval; try assumption; try lia.
    cbn [cyc_prev]. rewrite <- Hpl. reflexivity.
Qed.

(** C2 (as amended).  Let [idx - 1] and [idx] both be cubic off points and the
    sample count be at least two.  Called at [idx],
    [trace_cubic_off_points] returns exactly [sample_count] points: the curve
    sampler's output for the control points [point before the pair, first of
    the pair, second of the pair, point after the pair], whose first point is
    the point before the pair and whose last is the point after the pair.
    Called at [idx - 1] it returns the empty array provided the point before
    the pair is not itself a cubic off point. *)
Theorem trace_cubic_pair (idx sample_count : nat) :
  (1 <= idx < N)%nat ->
  (2 <= sample_count)%nat ->
  tag_at (idx - 1)%nat = FT_Curve_Tag_Cubic ->
  tag_at idx = FT_Curve_Tag_Cubic ->
  let before := point_at (cyc_prev N (idx - 1)) in
  let after := point_at (cyc_next N idx) in
  (tag_at (cyc_prev N (idx - 1)) <> FT_Curve_Tag_Cubic ->
   trace_cubic_off_points c_points c_tags (Z.of_nat (idx - 1)) sample_count
   = Ok [])
  /\ exists arc,
      trace_cubic_off_points c_points c_tags (Z.of_nat idx) sample_count
      = Ok (reshape_flat arc)
      /\ arc = bezier_curve
                [before; point_at (idx - 1)%nat; point_at idx; after]
                sample_count
      /\ length arc = sample_count
      /\ nth_error arc 0 = Some before
      /\ nth_error arc (sample_count - 1) = Some after.
Proof.
  intros Hidx Hs Ht1 Ht2 before after.
  assert (Hcp : cyc_prev N idx = (idx - 1)%nat)
    by (destruct idx; [lia | cbn; lia]).
  split.
  - intros Hflank. apply trace_cubic_empty; [lia |].
    left. exact Hflank.
  - eexists. split; [|split; [reflexivity|]].
    + rewrite trace_cubic_eval; try assumption; try lia.
      * rewrite Hcp. reflexivity.
      * rewrite Hcp. exact Ht1.
    + set (ctl := [before; _; _; after]).
      assert (Hl : length (bezier_curve ctl sample_count) = sample_count)
        by apply bezier_curve_length.
      split; [exact Hl|].
      assert (H0 : (0 < length (bezier_curve ctl sample_count))%nat) by lia.
      assert (H1 : (sample_count - 1 < length (bezier_curve ctl sample_count))%nat)
        by lia.
      rewrite (nth_error_nth' _ pzero H0), (nth_error_nth' _ pzero H1).
      rewrite bezier_curve_first, bezier_curve_last by (cbn; lia).
      split; reflexivity.
Qed.

End Contour.

Lemma trace_conic_quadratic_arc_witness :
  trace_conic_off_points conic2_points conic2_tags 1 5 =
  Ok (reshape_flat (bezier_curve
        [pt 0 0; pt 2 4; pdiv (padd (pt 6 4) (pt 2 4)) (Qc_of_nat 2)] 5)).
Proof.
  apply (trace_conic_quadratic_arc conic2_points conic2_tags eq_refl 1 5).
  - cbn; lia.
  - left. split; reflexivity.
  - right. split; reflexivity.
Defined.

Lemma trace_conic_adjacency_witness :
  exists t, (t = FT_Curve_Tag_Cubic \/ t = FT_Curve_Tag_On)
    /\ supported t = false
    /\ trace_conic_off_points cubic_points mixed_tags 1 5 = Raise (ValueError 1 t).
Proof.
  apply (proj1 (trace_conic_adjacency cubic_points mixed_tags eq_refl 1 5
                  ltac:(cbn; lia))).
  left. reflexivity.
Defined.

Lemma trace_cubic_isolated_witness :
  trace_cubic_off_points cubic_points isolated_tags 1 5 = Ok [].
Proof.
  apply (trace_cubic_isolated cubic_points isolated_tags eq_refl 1 5).
  - cbn; lia.
  - reflexivity.
  - cbn; discriminate.
Defined.

Lemma previous_of_first_is_last_witness :
  trace_conic_off_points conic2_points
    [FT_Curve_Tag_Conic; FT_Curve_Tag_On; FT_Curve_Tag_On; FT_Curve_Tag_On]
    0 5
  = Ok (reshape_flat (bezier_curve [pt 8 0; pt 0 0; pt 2 4] 5)).
Proof.
  apply (previous_of_first_is_last conic2_points
           [FT_Curve_Tag_Conic; FT_Curve_Tag_On; FT_Curve_Tag_On; FT_Curve_Tag_On]
           eq_refl 5 ltac:(cbn; lia)).
  - left. split; reflexivity.
  - left. split; reflexivity.
Defined.

Lemma trace_cubic_pair_witness :
  trace_cubic_off_points cubic_points cubic_tags 1 5 = Ok []
  /\ exists arc,
      trace_cubic_off_points cubic_points cubic_tags 2 5 = Ok (reshape_flat arc)
      /\ arc = bezier_curve [pt 0 0; pt 1 3; pt 3 3; pt 4 0] 5
      /\ length arc = 5%nat
      /\ nth_error arc 0 = Some (pt 0 0)
      /\ nth_error arc (5 - 1) = Some (pt 4 0).
Proof.
  destruct (trace_cubic_pair cubic_points cubic_tags eq_refl 2 5)
    as [Hfirst Hsecond]; [cbn; lia | lia | reflexivity | reflexivity |].
  split; [apply Hfirst; cbn; discriminate | exact Hsecond].
Defined.

(** C2, as stated, fails: with three cubic off points in a row, indices 1 and
    2 are both cubic, yet the call at index 1 (the first of that pair) samples
    an arc, here with control points [p3, p0, p1, p2]. *)
Lemma trace_cubic_first_of_pair_not_empty :
  nth 1 cubic3_tags FT_Curve_Tag_Other = FT_Curve_Tag_Cubic
  /\ nth 2 cubic3_tags FT_Curve_Tag_Other = FT_Curve_Tag_Cubic
  /\ trace_cubic_off_points cubic_points cubic3_tags 1 5
     = Ok (reshape_flat (bezier_curve [pt 4 0; pt 0 0; pt 1 3; pt 3 3] 5))
  /\ trace_cubic_off_points cubic_points cubic3_tags 1 5 <> Ok [].
Proof.
  assert (E : trace_cubic_off_points cubic_points cubic3_tags 1 5
              = Ok (reshape_flat (bezier_curve [pt 4 0; pt 0 0; pt 1 3; pt 3 3] 5)))
    by reflexivity.
  repeat split; try reflexivity. rewrite E. cbn. discriminate.
Qed.

(* ================================================================== *)
(** * Contour walk: [glyph2vertices] *)

Lemma walk_points_collect c_points c_tags n idxs : forall acc,
  walk_points c_points c_tags n idxs acc =
  (xs <- collect (map (emit c_points c_tags n) idxs) ;; Ok (acc ++ xs)).
Proof.
  induction idxs as [|i rest IH]; intros acc; cbn [walk_points map collect bind].
  - rewrite app_nil_r. reflexivity.
  - unfold emit at 1.
    destruct (py_index c_tags (Z.of_nat i)) as [tag|e]; cbn [bind]; [|reflexivity].
    destruct tag; cbn [tag_eqb].
    1-3: bind_case ltac:(reflexivity); rewrite IH; bind_case ltac:(reflexivity);
         rewrite app_assoc; reflexivity.
    rewrite IH. destruct (collect _) as [xs|e]; cbn [bind]; reflexivity.
Qed.

Lemma walk_points_accumulate c_points c_tags n :
  walk_points c_points c_tags n (seq 0 (length c_points)) [] = accumulate c_points c_tags n.
Proof.
  rewrite walk_points_collect. unfold accumulate.
  destruct (collect _); reflexivity.
Qed.

Lemma walk_contours_spec g n cs : forall prev_c acc out,
  walk_contours g n cs prev_c acc = Ok out <->
  exists pres,
    Forall2 (fun sl pre => accumulate (fst sl) (snd sl) n = Ok pre)
            (contour_slices (points (outline g)) (tags (outline g)) cs prev_c) pres
    /\ out = acc ++ map (map (fun x => (x / vertAdvance (metrics g))%Qc)) pres.
Proof.
  induction cs as [|c rest IH]; intros prev_c acc out; cbn [walk_contours contour_slices].
  - split.
    + intros H. exists []. split; [constructor|]. cbn. rewrite app_nil_r. congruence.
    + intros (pres & HF & ->). inversion HF; subst. cbn. rewrite app_nil_r. reflexivity.
  - rewrite walk_points_accumulate.
    destruct (accumulate _ _ n) as [pre|e] eqn:Eacc; cbn [bind].
    + rewrite IH. split.
      * intros (pres & HF & ->). exists (pre :: pres). split.
        -- constructor; [exact Eacc | exact HF].
        -- cbn [map]. rewrite <- app_assoc. reflexivity.
      * intros (pres & HF & ->). inversion HF as [|sl pre' sls pres' Hsl HF']; subst.
        cbn [fst snd] in Hsl. rewrite Eacc in Hsl. injection Hsl as <-.
        exists pres'. split; [exact HF'|]. cbn [map]. rewrite <- app_assoc. reflexivity.
    + split; [discriminate|].
      intros (pres & HF & _). inversion HF as [|sl pre' sls pres' Hsl HF']; subst.
      cbn [fst snd] in Hsl. rewrite Eacc in Hsl. discriminate.
Qed.

Lemma glyph2vertices_spec g n out :
  glyph2vertices g n = Ok out <->
  exists pres,
    Forall2 (fun sl pre => accumulate (fst sl) (snd sl) n = Ok pre)
            (contour_slices (points (outline g)) (tags (outline g))
                            (contours (outline g)) (-1)) pres
    /\ out = map (map (fun x => (x / vertAdvance (metrics g))%Qc)) pres.
Proof. unfold glyph2vertices. rewrite walk_contours_spec. reflexivity. Qed.

(** C8.  For a glyph whose vertical advance is not zero (at zero numpy
    divides to inf or nan, which the rationals do not model),
    [glyph2vertices] returns [out] exactly when every contour's walk succeeds
    and [out] holds, contour by contour and in order, the coordinates
    accumulated by the walk (on points as they are, sampled arcs for off
    points), each divided by the vertical advance. *)
Theorem glyph2vertices_normalized (g : Glyph) (n_segments : nat)
    (out : list (list Qc)) :
  vertAdvance (metrics g) <> 0%Qc ->
  (glyph2vertices g n_segments = Ok out <->
   exists pres,
     Forall2 (fun sl pre => accumulate (fst sl) (snd sl) n_segments = Ok pre)
             (contour_slices (points (outline g)) (tags (outline g))
                             (contours (outline g)) (-1)) pres
     /\ out = map (map (fun x => (x / vertAdvance (metrics g))%Qc)) pres).
Proof. intros _. apply glyph2vertices_spec. Qed.

Lemma glyph2vertices_normalized_witness :
  glyph2vertices arc_glyph 5 =
  Ok (map (map (fun x => (x / Qc_of_nat 2)%Qc))
          [row (pt 0 0) ++ reshape_flat (bezier_curve arc_points 5)
           ++ row (pt 4 0)]).
Proof.
  apply (proj2 (glyph2vertices_normalized arc_glyph 5 _
                  (Qc_of_nat_neq0 2 ltac:(lia)))).
  eexists. split; [|reflexivity].
  constructor; [reflexivity | constructor].
Defined.

(** Every array the tracers return is a whole number of rows. *)
Lemma trace_conic_rows c_points c_tags idx n x :
  trace_conic_off_points c_points c_tags idx n = Ok x ->
  exists pts, x = reshape_flat pts.
Proof.
  unfold trace_conic_off_points.
  do 3 bind_case ltac:(discriminate).
  intros H. injection H as <-. eauto.
Qed.

Lemma trace_cubic_rows c_points c_tags idx n x :
  trace_cubic_off_points c_points c_tags idx n = Ok x ->
  exists pts, x = reshape_flat pts.
Proof.
  unfold trace_cubic_off_points.
  destruct (py_index c_tags _) as [t|e]; cbn [bind]; [|discriminate].
  destruct (tag_eqb t _); [|intros H; injection H as <-; exists []; reflexivity].
  destruct (py_index c_tags _) as [t'|e]; cbn [bind]; [|discriminate].
  destruct (tag_eqb t' _); [|intros H; injection H as <-; exists []; reflexivity].
  repeat (destruct (py_index c_points _) as [?|?]; cbn [bind]; [|discriminate]).
  intros H. injection H as <-. eauto.
Qed.

Lemma reshape_flat_app a b :
  reshape_flat (a ++ b) = reshape_flat a ++ reshape_flat b.
Proof.
  induction a as [|[x y] a IH]; cbn [reshape_flat app]; [reflexivity|].
  rewrite IH. reflexivity.
Qed.

Lemma emit_rows c_points c_tags n i x :
  emit c_points c_tags n i = Ok x -> exists pts, x = reshape_flat pts.
Proof.
  unfold emit. destruct (py_index c_tags _) as [t|e]; cbn [bind]; [|discriminate].
  destruct t.
  - destruct (py_index c_points _) as [[px py]|e]; cbn [bind]; [|discriminate].
    intros H. injection H as <-. exists [(px, py)]. reflexivity.
  - apply trace_conic_rows.
  - apply trace_cubic_rows.
  - intros H. injection H as <-. exists []. reflexivity.
Qed.

Lemma collect_rows c_points c_tags n idxs : forall pre,
  collect (map (emit c_points c_tags n) idxs) = Ok pre ->
  exists pts, pre = reshape_flat pts.
Proof.
  induction idxs as [|i rest IH]; intros pre; cbn [map collect].
  - intros H. injection H as <-. exists []. reflexivity.
  - destruct (emit c_points c_tags n i) as [x|e] eqn:Ex; cbn [bind]; [|discriminate].
    destruct (collect _) as [xs|e]; cbn [bind]; [|discriminate].
    intros H. injection H as <-.
    destruct (emit_rows _ _ _ _ _ Ex) as [p1 ->].
    destruct (IH xs eq_refl) as [p2 ->].
    exists (p1 ++ p2). symmetry. apply reshape_flat_app.
Qed.

Lemma map_reshape_flat (f : Qc -> Qc) pts :
  map f (reshape_flat pts)
  = reshape_flat (map (fun p => (f (fst p), f (snd p))) pts).
Proof.
  induction pts as [|[x y] pts IH]; cbn [reshape_flat map fst snd]; [reflexivity|].
  rewrite IH. reflexivity.
Qed.

(** A traced contour is a whole number of rows: its flat buffer never has an
    odd number of scalars. *)
Lemma glyph2vertices_rows g n out :
  glyph2vertices g n = Ok out ->
  Forall (fun contour => exists pts, contour = reshape_flat pts) out.
Proof.
  intros H. apply glyph2vertices_spec in H. destruct H as (pres & HF & ->).
  apply Forall_forall. intros c Hc. apply in_map_iff in Hc.
  destruct Hc as (pre & <- & Hin).
  assert (Hpre : exists pts, pre = reshape_flat pts).
  { clear -HF Hin. induction HF as [|sl pre' sls pres' Hsl HF IH];
      [contradiction|].
    destruct Hin as [->|Hin]; [|apply IH; exact Hin].
    unfold accumulate in Hsl. eapply collect_rows; exact Hsl. }
  destruct Hpre as [pts ->]. rewrite map_reshape_flat. eauto.
Qed.

(* ================================================================== *)
(** * Line flattening: [vertices2lines] *)

Lemma vertices2lines_flat_map cs : vertices2lines cs = flat_map contour_lines cs.
Proof.
  unfold vertices2lines.
  assert (G : forall acc, fold_left (fun lines contour => lines ++ contour_lines contour) cs acc
                          = acc ++ flat_map contour_lines cs).
  { induction cs as [|c cs IH]; intros acc; cbn [fold_left flat_map].
    - rewrite app_nil_r. reflexivity.
    - rewrite IH, app_assoc. reflexivity. }
  apply G.
Qed.


Local Open Scope nat_scope.

Lemma reshape_flat_length a : length (reshape_flat a) = 2 * length a.
Proof. induction a as [|[x y] a IH]; cbn [reshape_flat length]; lia. Qed.

Lemma reshape_flat_skipn k : forall a,
  skipn (2 * k) (reshape_flat a) = reshape_flat (skipn k a).
Proof.
  induction k as [|k IH]; intros a; [reflexivity|].
  replace (2 * S k) with (S (S (2 * k))) by lia.
  destruct a as [|[x y] a]; [reflexivity|].
  cbn [reshape_flat skipn]. apply IH.
Qed.

Lemma reshape_flat_firstn k : forall a,
  firstn (2 * k) (reshape_flat a) = reshape_flat (firstn k a).
Proof.
  induction k as [|k IH]; intros a; [reflexivity|].
  replace (2 * S k) with (S (S (2 * k))) by lia.
  destruct a as [|[x y] a]; [reflexivity|].
  cbn [reshape_flat firstn]. rewrite IH. reflexivity.
Qed.

Lemma reshape_flat_flat_map {A} (f : A -> list Point) l :
  flat_map (fun k => reshape_flat (f k)) l = reshape_flat (flat_map f l).
Proof.
  induction l as [|x l IH]; cbn [flat_map]; [reflexivity|].
  rewrite reshape_flat_app, IH. reflexivity.
Qed.

Lemma range_step2_even n : range_step2 (2 * n) = map (fun k => 2 * k) (seq 0 n).
Proof.
  unfold range_step2. rewrite Nat.div2_succ_double. reflexivity.
Qed.

(** The window [contour[i:i+4]] at the [k]-th point: that point and the next
    one, or that point alone at the end of the buffer. *)
Lemma window_slice pts k :
  k < length pts ->
  py_slice (reshape_flat pts) (Z.of_nat (2 * k)) (Z.of_nat (2 * k) + 4) =
  reshape_flat (firstn 2 (skipn k pts)).
Proof.
  intros Hk. unfold py_slice, slice_bound, len. rewrite reshape_flat_length.
  destruct (Z.ltb_spec (Z.of_nat (2 * k)) 0); [lia|].
  destruct (Z.ltb_spec (Z.of_nat (2 * k) + 4) 0); [lia|].
  replace (Z.to_nat (Z.max 0 (Z.min (Z.of_nat (2 * length pts)) (Z.of_nat (2 * k)))))
    with (2 * k) by lia.
  rewrite reshape_flat_skipn.
  assert (Hl : length (skipn k pts) = length pts - k) by apply length_skipn.
  destruct (skipn k pts) as [|p [|p' r]]; cbn [length] in Hl; [lia| |].
  - replace (Z.to_nat _) with 2 by lia. destruct p; reflexivity.
  - replace (Z.to_nat _) with 4 by lia. destruct p, p'; reflexivity.
Qed.

Lemma closing_slice_points pts :
  closing_slice (reshape_flat pts) = reshape_flat (firstn 1 pts).
Proof.
  unfold closing_slice, len. rewrite reshape_flat_length.
  replace (Z.of_nat (2 * length pts) mod 2)%Z with 0%Z
    by (rewrite Nat2Z.inj_mul, Z.mul_comm, Z.mod_mul; lia).
  cbn [Z.eqb negb]. unfold py_slice, slice_bound, len. rewrite reshape_flat_length.
  cbn [Z.ltb Z.compare]. destruct pts as [|[x y] pts]; [reflexivity|].
  cbn [length]. replace (Z.to_nat _) with 2 by lia.
  replace (Z.to_nat _) with 0 by lia. reflexivity.
Qed.

(** The other branch of the closing step, [contour[-2:2]], on a buffer with
    an odd number of scalars: empty from five scalars on. *)
Lemma closing_slice_odd_buffer (c : list Qc) :
  Nat.odd (length c) = true -> 5 <= length c -> closing_slice c = [].
Proof.
  intros Hodd H5. unfold closing_slice, len.
  assert (Hm : (Z.of_nat (length c) mod 2)%Z = 1%Z).
  { apply Nat.odd_spec in Hodd. destruct Hodd as [m Hm]. rewrite Hm.
    replace (Z.of_nat (2 * m + 1)) with (1 + Z.of_nat m * 2)%Z by lia.
    rewrite Z.mod_add by lia. reflexivity. }
  rewrite Hm. cbn [Z.eqb negb]. unfold py_slice, slice_bound, len.
  cbn [Z.ltb Z.compare].
  replace (Z.to_nat (_ - _)) with 0 by lia. reflexivity.
Qed.

Lemma flat_map_seq_shift {A} (f : nat -> list A) n : forall a,
  flat_map f (seq (S a) n) = flat_map (fun k => f (S k)) (seq a n).
Proof.
  induction n as [|n IH]; intros a; cbn [seq flat_map]; [reflexivity|].
  rewrite IH. reflexivity.
Qed.

Lemma flat_map_ext_seq {A} (f g : nat -> list A) a n :
  (forall k, a <= k < a + n -> f k = g k) ->
  flat_map f (seq a n) = flat_map g (seq a n).
Proof.
  revert a. induction n as [|n IH]; intros a H; cbn [seq flat_map]; [reflexivity|].
  rewrite H by lia. rewrite IH by (intros k Hk; apply H; lia). reflexivity.
Qed.

Lemma windows_closed (l : list Point) (d0 : Point) :
  flat_map (fun k => firstn 2 (skipn k l)) (seq 0 (length l))
    ++ match l with [] => [] | _ :: _ => [d0] end
  = flat_map (fun k => [nth k l pzero; nth (S k) l d0]) (seq 0 (length l)).
Proof.
  induction l as [|x l IH]; [reflexivity|].
  cbn [length seq flat_map]. rewrite !flat_map_seq_shift.
  cbn [skipn nth]. destruct l as [|y l].
  - reflexivity.
  - rewrite <- IH. reflexivity.
Qed.

Lemma contour_lines_points pts :
  contour_lines (reshape_flat pts) = reshape_flat (closed_segments pts).
Proof.
  unfold contour_lines. rewrite reshape_flat_length, range_step2_even, closing_slice_points.
  rewrite flat_map_concat_map, map_map, <- flat_map_concat_map.
  rewrite (flat_map_ext_seq _ (fun k => reshape_flat (firstn 2 (skipn k pts)))).
  2:{ intros k Hk. rewrite <- window_slice by lia. reflexivity. }
  rewrite reshape_flat_flat_map, <- reshape_flat_app. f_equal.
  unfold closed_segments.
  replace (firstn 1 pts) with (match pts with [] => [] | _ :: _ => [nth 0 pts pzero] end)
    by (destruct pts; reflexivity).
  rewrite windows_closed. apply flat_map_ext_seq. intros k Hk.
  f_equal. f_equal.
  destruct (Nat.eq_dec (S k) (length pts)) as [E|E].
  - rewrite E, Nat.Div0.mod_same. rewrite nth_overflow by lia. reflexivity.
  - rewrite Nat.mod_small by lia. apply nth_indep. lia.
Qed.

Lemma Qcdiv_1_r (x : Qc) : (x / 1)%Qc = x.
Proof. field. exact Q_apart_0_1. Qed.

(** C5.  The square glyph (four on points, one contour, vertical advance 1)
    is traced, for any segment count, to one contour holding the same four
    points unchanged, and flattening that contour gives exactly the segments
    (0,0)-(0,1), (0,1)-(1,1), (1,1)-(1,0), (1,0)-(0,0). *)
Theorem square_round_trip (n_segments : nat) :
  glyph2vertices square_glyph n_segments = Ok [reshape_flat square_points]
  /\ vertices2lines [reshape_flat square_points]
     = reshape_flat [pt 0 0; pt 0 1;  pt 0 1; pt 1 1;
                     pt 1 1; pt 1 0;  pt 1 0; pt 0 0].
Proof.
  split; [|reflexivity].
  apply glyph2vertices_spec. exists [reshape_flat square_points]. split.
  - constructor; [reflexivity | constructor].
  - cbn [map square_glyph metrics vertAdvance].
    rewrite (map_ext _ (fun x => x) Qcdiv_1_r), map_id. reflexivity.
Qed.

(** C6 (as amended).  A traced contour is a flat buffer of two scalars per
    point, and the closing step tests the parity of the number of scalars.
    So for every traced contour, whatever the parity of its number of points,
    the flattener emits segment [k] from point [k] to point [k + 1] and a
    final segment from the last point to point 0: the closing step appends
    the first point.  The other branch of the closing step is reached only by
    a buffer with an odd number of scalars, which [glyph2vertices] never
    returns. *)
Theorem vertices2lines_closes_contours (cs : list (list Point)) :
  vertices2lines (map reshape_flat cs) = reshape_flat (flat_map closed_segments cs)
  /\ (forall pts, closing_slice (reshape_flat pts) = reshape_flat (firstn 1 pts))
  /\ (forall g n out, glyph2vertices g n = Ok out ->
        Forall (fun contour => exists pts, contour = reshape_flat pts) out).
Proof.
  split; [|split].
  - rewrite vertices2lines_flat_map.
    induction cs as [|pts cs IH]; [reflexivity|].
    cbn [map flat_map]. rewrite IH, contour_lines_points, reshape_flat_app.
    reflexivity.
  - apply closing_slice_points.
  - apply glyph2vertices_rows.
Qed.

(** C6, as stated, fails: the triangle has an odd number of points (three),
    yet the closing step selects its first point and the output ends with the
    segment from the last point to the first. *)
Lemma closing_slice_odd_point_count :
  Nat.odd (length triangle_points) = true
  /\ closing_slice (reshape_flat triangle_points) = row (pt 0 0)
  /\ closing_slice (reshape_flat triangle_points) <> []
  /\ vertices2lines [reshape_flat triangle_points]
     = reshape_flat [pt 0 0; pt 1 0;  pt 1 0; pt 0 1;  pt 0 1; pt 0 0].
Proof.
  repeat split; try reflexivity. cbn. discriminate.
Qed.

(* ================================================================== *)
(** * More on sampling: linearity, symmetry, few samples *)

Local Open Scope Qc_scope.

(** The example data, evaluated. *)
Lemma arc_glyph_traced :
  glyph2vertices arc_glyph 5 = Ok [normalize (Qc_of_nat 2) arc_traced].
Proof. reflexivity. Qed.

Lemma demo_tracer_loaded :
  load_font demo_face demo_printable 5 FontTracer_init = (demo_tracer, None).
Proof. vm_compute. reflexivity. Qed.

Lemma map_nth_seq {A B} (f : A -> B) (l : list A) d :
  map (fun k => f (nth k l d)) (seq 0 (length l)) = map f l.
Proof.
  induction l as [|x l IH]; [reflexivity|].
  cbn [length seq map nth]. f_equal.
  rewrite <- seq_shift, map_map. exact IH.
Qed.

Lemma bezier_curve_weights P s :
  bezier_curve P s =
  map (fun t => dot_row (bernstein_weights (length P) t) P) (linspace 1 0 s).
Proof.
  unfold bezier_curve, dot, transpose. rewrite map_map.
  rewrite <- (map_nth_seq (fun t => dot_row (bernstein_weights (length P) t) P)
                          (linspace 1 0 s) 0).
  apply map_ext_in. intros k Hk. apply in_seq in Hk.
  f_equal. rewrite map_map. unfold bernstein_weights. apply map_ext. intros i.
  unfold bernstein_poly. rewrite (nth_map_lt _ _ _ _ 0) by lia. reflexivity.
Qed.










Lemma Qc_of_nat_plus n m : Qc_of_nat (n + m) = Qc_of_nat n + Qc_of_nat m.
Proof.
  induction n as [|n IH]; cbn [Nat.add].
  - rewrite Qc_of_nat_0. ring.
  - rewrite !Qc_of_nat_S, IH. ring.
Qed.









Lemma dot_row_weights_at_1 P :
  P <> [] -> dot_row (bernstein_weights (length P) 1) P = nth 0 P pzero.
Proof.
  intros HP. unfold bernstein_weights. rewrite dot_row_seq.
  rewrite (psum_single _ 0 (length P) 0%nat).
  - rewrite comb_0, Qc_of_nat_1, Qcpower_1. cbn [Qcpower].
    replace (1 * 1 * 1) with 1 by ring. apply pscale_1.
  - destruct P; [congruence | cbn; lia].
  - intros i Hi Hne. replace (1 - 1) with 0 by ring. rewrite (Qcpower_0 i) by lia.
    replace (Qc_of_nat (comb (length P - 1) i) * 1 ^ (length P - 1 - i) * 0) with 0 by ring.
    apply pscale_0.
Qed.

(** X1.  For one control point or more, the sampler returns exactly
    [n_samples] points; with no sample it returns nothing and with a single
    sample it returns the first control point alone (the last control point
    is not reached). *)
Theorem bezier_curve_few_samples P :
  P <> [] ->
  bezier_curve P 0 = [] /\ bezier_curve P 1 = [nth 0 P pzero]
  /\ forall s, length (bezier_curve P s) = s.
Proof.
  intros HP. split; [reflexivity|]. split; [|intros s; apply bezier_curve_length].
  rewrite bezier_curve_weights. cbn [linspace map].
  rewrite dot_row_weights_at_1 by exact HP. reflexivity.
Qed.

Lemma bezier_curve_few_samples_witness :
  bezier_curve arc_points 1 = [pt 0 0].
Proof.
  exact (proj1 (proj2 (bezier_curve_few_samples arc_points ltac:(discriminate)))).
Defined.

(** X2.  With two control points [a] and [b] and at least two samples,
    sample [k] is the point [(1 - u) a + u b] at [u = k / (s - 1)]: the
    samples are evenly spaced on the segment from [a] to [b]. *)
Theorem bezier_curve_line (a b : Point) (s k : nat) :
  (2 <= s)%nat -> (k < s)%nat ->
  let u := Qc_of_nat k / Qc_of_nat (s - 1) in
  nth_error (bezier_curve [a; b] s) k
  = Some (padd (pscale (1 - u) a) (pscale u b)).
Proof.
  intros Hs Hk u.
  assert (Hk' : (k < length (bezier_curve [a; b] s))%nat)
    by (rewrite bezier_curve_length; exact Hk).
  rewrite (nth_error_nth' _ pzero Hk'). f_equal.
  rewrite bezier_curve_bernstein by assumption. fold u.
  unfold bernstein_point. cbn [length seq map psum fold_right nth Nat.sub comb Nat.add].
  rewrite Qc_of_nat_1. cbn [Qcpower].
  apply point_eq; cbn [padd pscale pzero fst snd]; ring.
Qed.

Lemma bezier_curve_line_witness :
  nth_error (bezier_curve [pt 0 0; pt 4 2] 5) 1
  = Some (padd (pscale (1 - Qc_of_nat 1 / Qc_of_nat (5 - 1)) (pt 0 0))
               (pscale (Qc_of_nat 1 / Qc_of_nat (5 - 1)) (pt 4 2))).
Proof. apply (bezier_curve_line (pt 0 0) (pt 4 2) 5 1); lia. Defined.











Local Open Scope Z_scope.

(* ================================================================== *)
(** * More on the contour walk *)

Lemma walk_contours_traverse g n cs : forall prev_c acc,
  walk_contours g n cs prev_c acc =
  result_map (fun pres => acc ++ map (normalize (vertAdvance (metrics g))) pres)
    (traverse (fun sl => accumulate (fst sl) (snd sl) n)
              (contour_slices (points (outline g)) (tags (outline g)) cs prev_c)).
Proof.
  induction cs as [|c rest IH]; intros prev_c acc;
    cbn [walk_contours contour_slices traverse result_map map].
  - rewrite app_nil_r. reflexivity.
  - rewrite walk_points_accumulate. cbn [fst snd].
    destruct (accumulate _ _ n) as [pre|e]; cbn [bind]; [|reflexivity].
    rewrite IH. destruct (traverse _ _) as [pres|e]; cbn [bind result_map]; [|reflexivity].
    cbn [map]. rewrite <- app_assoc. reflexivity.
Qed.

Lemma glyph2vertices_traverse g n :
  glyph2vertices g n =
  result_map (map (normalize (vertAdvance (metrics g))))
    (traverse (fun sl => accumulate (fst sl) (snd sl) n) (glyph_slices g)).
Proof.
  unfold glyph2vertices, glyph_slices. rewrite walk_contours_traverse.
  destruct (traverse _ _); reflexivity.
Qed.

Lemma traverse_length {A B} (f : A -> result B) l : forall ys,
  traverse f l = Ok ys -> length ys = length l.
Proof.
  induction l as [|x l IH]; intros ys; cbn [traverse].
  - intros H. injection H as <-. reflexivity.
  - destruct (f x); cbn [bind]; [|discriminate].
    destruct (traverse f l) as [zs|]; cbn [bind]; [|discriminate].
    intros H. injection H as <-. cbn [length]. f_equal. apply IH. reflexivity.
Qed.

Lemma contour_slices_length pts tgs cs : forall prev_c,
  length (contour_slices pts tgs cs prev_c) = length cs.
Proof. induction cs as [|c cs IH]; intros prev_c; cbn; [reflexivity | f_equal; apply IH]. Qed.

(** X6.  When [glyph2vertices] returns, it returns one traced
    contour per entry of [glyph.outline.contours]. *)
Theorem glyph2vertices_length g n out :
  glyph2vertices g n = Ok out -> length out = length (contours (outline g)).
Proof.
  rewrite glyph2vertices_traverse.
  destruct (traverse _ _) as [pres|e] eqn:E; cbn [result_map]; [|discriminate].
  intros H. injection H as <-. rewrite length_map.
  rewrite (traverse_length _ _ _ E). apply contour_slices_length.
Qed.

Lemma glyph2vertices_length_witness :
  length [normalize (Qc_of_nat 2) arc_traced]
  = length (contours (outline arc_glyph)).
Proof. exact (glyph2vertices_length arc_glyph 5 _ arc_glyph_traced). Defined.

Lemma traverse_raise {A B} (f : A -> result B) l e :
  traverse f l = Raise e <->
  exists before x after,
    l = before ++ x :: after
    /\ Forall (fun y => exists b, f y = Ok b) before
    /\ f x = Raise e.
Proof.
  induction l as [|x l IH]; cbn [traverse].
  - split; [discriminate|]. intros (before & y & after & H & _). destruct before; discriminate.
  - destruct (f x) as [b|e'] eqn:Ex; cbn [bind].
    + destruct (traverse f l) as [ys|e''] eqn:El; cbn [bind].
      * split; [discriminate|]. intros (before & y & after & H & HF & Hy).
        destruct before as [|z before]; cbn [app] in H; injection H as -> ->.
        -- congruence.
        -- inversion HF; subst.
           assert (Hr : Ok ys = Raise e) by (apply IH; eauto 6).
           discriminate.
      * split.
        -- intros H. apply IH in H. destruct H as (before & y & after & -> & HF & Hy).
           exists (x :: before), y, after. repeat split; auto.
           constructor; eauto.
        -- intros (before & y & after & H & HF & Hy).
           destruct before as [|z before]; cbn [app] in H; injection H as -> ->.
           ++ congruence.
           ++ inversion HF; subst. apply IH. eauto 6.
    + split.
      * intros H. injection H as <-. exists [], x, l. repeat split; auto.
      * intros (before & y & after & H & HF & Hy).
        destruct before as [|z before]; cbn [app] in H; injection H as -> ->.
        -- congruence.
        -- inversion HF as [|? ? [b Hb] ?]; subst. congruence.
Qed.

(** X7.  [glyph2vertices] raises [e] exactly when some contour's walk
    raises [e] and the walks of all contours before it succeed: the first
    failing contour decides, and no partial result is returned. *)
Theorem glyph2vertices_raises g n e :
  glyph2vertices g n = Raise e <->
  exists before sl after,
    glyph_slices g = before ++ sl :: after
    /\ Forall (fun s => exists pre, accumulate (fst s) (snd s) n = Ok pre) before
    /\ accumulate (fst sl) (snd sl) n = Raise e.
Proof.
  rewrite glyph2vertices_traverse, <- traverse_raise.
  destruct (traverse _ _); cbn [result_map]; split; congruence.
Qed.

(* ================================================================== *)
(** * Tracing under maps of the plane *)






Section PointMap.

Variable f : Point -> Point.
Hypothesis f_midpoint : forall x y, f (midpoint x y) = midpoint (f x) (f y).
Hypothesis f_bezier : forall P s,
  P <> [] -> bezier_curve (map f P) s = map f (bezier_curve P s).







End PointMap.




Lemma Qc_2_neq0 : Qc_of_nat 2 <> 0%Qc.
Proof. apply Qc_of_nat_neq0. lia. Qed.


Lemma Qc_of_nat_2 : Qc_of_nat 2 = (1 + 1)%Qc.
Proof. rewrite !Qc_of_nat_S, Qc_of_nat_0. ring. Qed.







(* ================================================================== *)
(** * More on arcs *)

(** X11.  A value returned by [trace_conic_off_points] holds exactly
    [2 * n_segments] scalars; a value returned by [trace_cubic_off_points] is
    empty or holds exactly [2 * n_segments] scalars.  This holds for any index
    and any arrays. *)
Theorem trace_sizes (c_points : list Point) (c_tags : list FT_Curve_Tag)
    (idx : Z) (n_segments : nat) (x : list Qc) :
  (trace_conic_off_points c_points c_tags idx n_segments = Ok x ->
   length x = (2 * n_segments)%nat)
  /\ (trace_cubic_off_points c_points c_tags idx n_segments = Ok x ->
      x = [] \/ length x = (2 * n_segments)%nat).
Proof.
  split.
  - unfold trace_conic_off_points. do 3 bind_case ltac:(discriminate).
    intros H. injection H as <-.
    rewrite reshape_flat_length, bezier_curve_length. reflexivity.
  - unfold trace_cubic_off_points. bind_case ltac:(discriminate).
    destruct (tag_eqb _ _); [|intros H; injection H as <-; left; reflexivity].
    bind_case ltac:(discriminate).
    destruct (tag_eqb _ _); [|intros H; injection H as <-; left; reflexivity].
    do 4 bind_case ltac:(discriminate).
    intros H. injection H as <-. right.
    rewrite reshape_flat_length, bezier_curve_length. reflexivity.
Qed.

Lemma nth_error_first_last (arc : list Point) s a b :
  (2 <= s)%nat -> length arc = s ->
  nth 0 arc pzero = a -> nth (s - 1) arc pzero = b ->
  nth_error arc 0 = Some a /\ nth_error arc (s - 1) = Some b.
Proof.
  intros Hs Hl <- <-.
  assert (H0 : (0 < length arc)%nat) by lia.
  assert (H1 : (s - 1 < length arc)%nat) by lia.
  rewrite (nth_error_nth' _ pzero H0), (nth_error_nth' _ pzero H1). split; reflexivity.
Qed.

(** X12.  With at least two segments, the arc traced at a conic off
    point starts exactly at its start anchor and ends exactly at its end
    anchor; when the previous point is on the curve, the arc's first point is
    that point again. *)
Theorem trace_conic_arc_ends (c_points : list Point) (c_tags : list FT_Curve_Tag)
    (idx n_segments : nat) (a_start a_end : Point) :
  length c_tags = length c_points ->
  (idx < length c_points)%nat ->
  (2 <= n_segments)%nat ->
  let N := length c_points in
  let p := nth idx c_points pzero in
  anchor_resolved (nth (cyc_prev N idx) c_tags FT_Curve_Tag_Other)
                  (nth (cyc_prev N idx) c_points pzero) p a_start ->
  anchor_resolved (nth (cyc_next N idx) c_tags FT_Curve_Tag_Other)
                  (nth (cyc_next N idx) c_points pzero) p a_end ->
  exists arc,
    trace_conic_off_points c_points c_tags (Z.of_nat idx) n_segments
    = Ok (reshape_flat arc)
    /\ length arc = n_segments
    /\ nth_error arc 0 = Some a_start
    /\ nth_error arc (n_segments - 1) = Some a_end.
Proof.
  intros Hlen Hidx Hs N p Ha Hb.
  rewrite trace_conic_eval by assumption. fold N p.
  rewrite (spec_anchor_resolved _ _ _ _ Ha), (spec_anchor_resolved _ _ _ _ Hb).
  eexists. split; [reflexivity|]. split; [apply bezier_curve_length|].
  apply nth_error_first_last; try assumption.
  - apply bezier_curve_length.
  - apply bezier_curve_first; [cbn; lia | assumption].
  - rewrite bezier_curve_last by (cbn; lia || assumption). reflexivity.
Qed.

Lemma trace_conic_arc_ends_witness :
  exists arc,
    trace_conic_off_points conic2_points conic2_tags 1 5 = Ok (reshape_flat arc)
    /\ length arc = 5%nat
    /\ nth_error arc 0 = Some (pt 0 0)
    /\ nth_error arc (5 - 1)
       = Some (pdiv (padd (pt 6 4) (pt 2 4)) (Qc_of_nat 2)).
Proof.
  apply (trace_conic_arc_ends conic2_points conic2_tags 1 5).
  - reflexivity.
  - cbn; lia.
  - lia.
  - left. split; reflexivity.
  - right. split; reflexivity.
Defined.

Lemma cyc_prev_next N i : (i < N)%nat -> cyc_prev N (cyc_next N i) = i.
Proof.
  intros Hi. unfold cyc_next. destruct (Nat.eqb_spec (S i) N) as [E|E]; cbn [cyc_prev]; lia.
Qed.

Lemma cyc_next_lt N i : (i < N)%nat -> (cyc_next N i < N)%nat.
Proof.
  intros Hi. unfold cyc_next. destruct (Nat.eqb_spec (S i) N) as [E|E]; lia.
Qed.

(** X13.  Two successive conic off points [i] and [j] (cyclically):
    with at least two segments, the arc traced at [i] ends and the arc traced
    at [j] starts at the same point, the middle of the two off points. *)
Theorem successive_conic_arcs_meet (c_points : list Point)
    (c_tags : list FT_Curve_Tag) (i n_segments : nat) (x y : list Qc) :
  length c_tags = length c_points ->
  (i < length c_points)%nat ->
  (2 <= n_segments)%nat ->
  let N := length c_points in
  let j := cyc_next N i in
  nth i c_tags FT_Curve_Tag_Other = FT_Curve_Tag_Conic ->
  nth j c_tags FT_Curve_Tag_Other = FT_Curve_Tag_Conic ->
  trace_conic_off_points c_points c_tags (Z.of_nat i) n_segments = Ok x ->
  trace_conic_off_points c_points c_tags (Z.of_nat j) n_segments = Ok y ->
  let m := midpoint (nth i c_points pzero) (nth j c_points pzero) in
  exists arc_i arc_j,
    x = reshape_flat arc_i /\ y = reshape_flat arc_j
    /\ nth_error arc_i (n_segments - 1) = Some m
    /\ nth_error arc_j 0 = Some m.
Proof.
  intros Hlen Hi Hs N j Hti Htj Hx Hy m.
  assert (Hj : (j < N)%nat) by (apply cyc_next_lt; exact Hi).
  assert (Hpj : cyc_prev N j = i) by (apply cyc_prev_next; exact Hi).
  rewrite trace_conic_eval in Hx by assumption.
  rewrite trace_conic_eval in Hy by assumption.
  fold N in Hx, Hy. fold j in Hx. rewrite Hpj in Hy.
  rewrite Htj in Hx. rewrite Hti in Hy. cbn [spec_anchor] in Hx, Hy.
  destruct (spec_anchor _ _ _) as [a|t] in Hx; [|discriminate].
  destruct (spec_anchor _ _ _) as [b|t] in Hy; [|discriminate].
  injection Hx as <-. injection Hy as <-.
  eexists. eexists. split; [reflexivity|]. split; [reflexivity|].
  split.
  - match goal with |- nth_error ?arc _ = _ =>
      assert (Hk : (n_segments - 1 < length arc)%nat)
        by (rewrite bezier_curve_length; lia);
      rewrite (nth_error_nth' _ pzero Hk)
    end.
    rewrite bezier_curve_last by (cbn; lia || assumption).
    cbn [length Nat.sub nth]. unfold m, midpoint. rewrite padd_comm. reflexivity.
  - match goal with |- nth_error ?arc _ = _ =>
      assert (Hk : (0 < length arc)%nat)
        by (rewrite bezier_curve_length; lia);
      rewrite (nth_error_nth' _ pzero Hk)
    end.
    rewrite bezier_curve_first by (cbn; lia || assumption). reflexivity.
Qed.

Lemma successive_conic_arcs_meet_witness :
  exists arc_i arc_j,
    reshape_flat (bezier_curve [pt 0 0; pt 2 4; midpoint (pt 2 4) (pt 6 4)] 5)
    = reshape_flat arc_i
    /\ reshape_flat (bezier_curve [midpoint (pt 6 4) (pt 2 4); pt 6 4; pt 8 0] 5)
       = reshape_flat arc_j
    /\ nth_error arc_i (5 - 1) = Some (midpoint (pt 2 4) (pt 6 4))
    /\ nth_error arc_j 0 = Some (midpoint (pt 2 4) (pt 6 4)).
Proof.
  apply (successive_conic_arcs_meet conic2_points conic2_tags 1 5).
  - reflexivity.
  - cbn; lia.
  - lia.
  - reflexivity.
  - reflexivity.
  - reflexivity.
  - reflexivity.
Defined.

(* ================================================================== *)
(** * Degenerate contours *)






(* ================================================================== *)
(** * Contours of on points *)

Lemma skipn_nth_cons {A} (l : list A) a d :
  (a < length l)%nat -> skipn a l = nth a l d :: skipn (S a) l.
Proof.
  revert a. induction l as [|x l IH]; intros [|a] H; cbn [length] in H; try lia.
  - reflexivity.
  - cbn [skipn nth]. rewrite (IH a) by lia. reflexivity.
Qed.

Lemma collect_all_on P T n : length T = length P ->
  Forall (fun t => t = FT_Curve_Tag_On) T ->
  forall m a, (a + m <= length P)%nat ->
  collect (map (emit P T n) (seq a m)) = Ok (reshape_flat (firstn m (skipn a P))).
Proof.
  intros Hlen Hon. induction m as [|m IH]; intros a Ha; [reflexivity|].
  cbn [seq map collect]. unfold emit at 1.
  rewrite (py_index_nat T a FT_Curve_Tag_Other) by lia. cbn [bind].
  assert (Ht : nth a T FT_Curve_Tag_Other = FT_Curve_Tag_On).
  { rewrite Forall_forall in Hon. apply Hon. apply nth_In. lia. }
  rewrite Ht. rewrite (py_index_nat P a pzero) by lia. cbn [bind].
  rewrite IH by lia. cbn [bind].
  rewrite (skipn_nth_cons P a pzero) by lia. cbn [firstn].
  destruct (nth a P pzero). reflexivity.
Qed.

Lemma accumulate_all_on P T n : length T = length P ->
  Forall (fun t => t = FT_Curve_Tag_On) T ->
  accumulate P T n = Ok (reshape_flat P).
Proof.
  intros Hlen Hon. unfold accumulate.
  rewrite (collect_all_on P T n Hlen Hon) by lia.
  cbn [skipn]. rewrite firstn_all. reflexivity.
Qed.

Lemma py_slice_length {A} (l : list A) lo hi :
  length (py_slice l lo hi)
  = Z.to_nat (slice_bound (len l) hi - slice_bound (len l) lo).
Proof.
  unfold py_slice. rewrite length_firstn, length_skipn.
  unfold slice_bound, len.
  destruct (lo <? 0), (hi <? 0); lia.
Qed.

Lemma Forall_skipn_keep {A} (Q : A -> Prop) k : forall l,
  Forall Q l -> Forall Q (skipn k l).
Proof.
  induction k as [|k IH]; intros l H; [exact H|].
  destruct H; [constructor | cbn [skipn]; apply IH; assumption].
Qed.

Lemma Forall_firstn_keep {A} (Q : A -> Prop) k : forall l,
  Forall Q l -> Forall Q (firstn k l).
Proof.
  induction k as [|k IH]; intros l H; [constructor|].
  destruct H; cbn [firstn]; constructor; auto.
Qed.

Lemma py_slice_Forall {A} (Q : A -> Prop) (l : list A) lo hi :
  Forall Q l -> Forall Q (py_slice l lo hi).
Proof.
  intros H. unfold py_slice. apply Forall_firstn_keep, Forall_skipn_keep, H.
Qed.

Lemma traverse_all_on pts tgs n cs : length tgs = length pts ->
  Forall (fun t => t = FT_Curve_Tag_On) tgs ->
  forall prev_c,
  traverse (fun sl => accumulate (fst sl) (snd sl) n) (contour_slices pts tgs cs prev_c)
  = Ok (map (fun sl => reshape_flat (fst sl)) (contour_slices pts tgs cs prev_c)).
Proof.
  intros Hlen Hon. induction cs as [|c cs IH]; intros prev_c;
    cbn [contour_slices traverse map fst snd]; [reflexivity|].
  rewrite accumulate_all_on.
  - cbn [bind]. rewrite IH. reflexivity.
  - rewrite !py_slice_length. unfold len. rewrite Hlen. reflexivity.
  - apply py_slice_Forall. exact Hon.
Qed.

(** X10.  For an outline with one tag per point whose points are all
    on the curve, every traced contour is that contour's own points divided by
    the vertical advance, whatever the segment count. *)
Theorem glyph2vertices_all_on (g : Glyph) (n_segments : nat) :
  length (tags (outline g)) = length (points (outline g)) ->
  Forall (fun t => t = FT_Curve_Tag_On) (tags (outline g)) ->
  glyph2vertices g n_segments
  = Ok (map (fun sl => normalize (vertAdvance (metrics g)) (reshape_flat (fst sl)))
            (glyph_slices g)).
Proof.
  intros Hlen Hon. rewrite glyph2vertices_traverse. unfold glyph_slices.
  rewrite traverse_all_on by assumption. cbn [result_map]. rewrite map_map. reflexivity.
Qed.

Lemma glyph2vertices_all_on_witness :
  glyph2vertices square_glyph 5
  = Ok (map (fun sl => normalize 1%Qc (reshape_flat (fst sl)))
            (glyph_slices square_glyph)).
Proof.
  apply (glyph2vertices_all_on square_glyph 5).
  - reflexivity.
  - repeat constructor.
Defined.

Local Open Scope nat_scope.

(* ================================================================== *)
(** * More on line flattening *)

Lemma flat_map_length_const {A B} (f : A -> list B) k l :
  (forall x, length (f x) = k) -> length (flat_map f l) = k * length l.
Proof.
  intros H. induction l as [|x l IH]; cbn [flat_map length]; [lia|].
  rewrite length_app, H, IH. lia.
Qed.

Lemma closed_segments_length pts : length (closed_segments pts) = 2 * length pts.
Proof.
  unfold closed_segments. rewrite (flat_map_length_const _ 2) by reflexivity.
  rewrite length_seq. reflexivity.
Qed.

Lemma lines_of_points_length (cs : list (list Point)) :
  length (vertices2lines (map reshape_flat cs)) = 4 * length (concat cs).
Proof.
  rewrite vertices2lines_flat_map.
  induction cs as [|pts cs IH]; [reflexivity|].
  cbn [map flat_map concat]. rewrite !length_app, IH, contour_lines_points.
  rewrite reshape_flat_length, closed_segments_length. lia.
Qed.

(** X15.  For traced contours, [vertices2lines] returns four scalars
    per traced point: one segment per point of each contour. *)
Theorem vertices2lines_size (cs : list (list Point)) :
  length (vertices2lines (map reshape_flat cs)) = 4 * length (concat cs).
Proof. exact (lines_of_points_length cs). Qed.

(** X16.  The lines of a list of contours are the lines of its first
    part followed by the lines of the rest: contours do not interact. *)
Theorem vertices2lines_app (a b : list (list Qc)) :
  vertices2lines (a ++ b) = vertices2lines a ++ vertices2lines b.
Proof. rewrite !vertices2lines_flat_map. apply flat_map_app. Qed.

(** X17.  On a buffer with an odd number of scalars the closing step
    appends the single scalar of a one-scalar buffer, the middle scalar of a
    three-scalar buffer, and nothing from five scalars on. *)
Theorem closing_slice_odd (c : list Qc) :
  Nat.odd (length c) = true ->
  closing_slice c
  = match c with
    | [x] => [x]
    | [_; y; _] => [y]
    | _ => []
    end.
Proof.
  intros Hodd. destruct c as [|x0 [|x1 [|x2 [|x3 [|x4 c]]]]]; try discriminate;
    try reflexivity.
  apply closing_slice_odd_buffer; [exact Hodd | cbn [length]; lia].
Qed.

Lemma closing_slice_odd_witness :
  closing_slice [0; 1; 0]%Qc = [1]%Qc.
Proof. apply (closing_slice_odd [0; 1; 0]%Qc). reflexivity. Defined.

Local Open Scope Z_scope.

(* ================================================================== *)
(** * The tracer: dictionaries and [load_font] *)

Lemma dict_get_set_same {V} (d : dict V) k v : dict_get (dict_set d k v) k = Some v.
Proof.
  induction d as [|[k' v'] d IH]; cbn [dict_set dict_get].
  - rewrite Ascii.eqb_refl. reflexivity.
  - destruct (Ascii.eqb k' k) eqn:E; cbn [dict_get]; rewrite E; [reflexivity | exact IH].
Qed.

Lemma dict_get_set_other {V} (d : dict V) k k' v :
  k <> k' -> dict_get (dict_set d k v) k' = dict_get d k'.
Proof.
  intros Hne. induction d as [|[k0 v0] d IH]; cbn [dict_set dict_get].
  - destruct (Ascii.eqb_spec k k'); [contradiction | reflexivity].
  - destruct (Ascii.eqb_spec k0 k) as [->|Hk]; cbn [dict_get].
    + destruct (Ascii.eqb_spec k k'); [contradiction | reflexivity].
    + destruct (Ascii.eqb k0 k'); [reflexivity | exact IH].
Qed.

Lemma Qc_eq_bool_false x y : x <> y -> Qc_eq_bool x y = false.
Proof. intros H. unfold Qc_eq_bool. destruct (Qc_eq_dec x y); [contradiction | reflexivity]. Qed.

Lemma load_char_done face n self c self' :
  load_char face n self c = (self', None) <->
  exists v,
    glyph2vertices (slot_glyph (face c)) n = Ok v
    /\ vertAdvance (metrics (slot_glyph (face c))) <> 0%Qc
    /\ self' = mkFontTracer
                 (dict_set (traced_vertices self) c v)
                 (dict_set (traced_lines self) c (vertices2lines v))
                 (dict_set (glyphs_advances self) c
                    ((advance_x (face c)
                      / vertAdvance (metrics (slot_glyph (face c))))%Qc, 1%Qc)).
Proof.
  unfold load_char.
  destruct (glyph2vertices _ n) as [v|e].
  - destruct (Qc_eq_bool _ 0) eqn:E.
    + split; [discriminate|]. intros (v' & Hv & Hne & _).
      apply Qc_eq_bool_correct in E. contradiction.
    + split.
      * intros H. injection H as <-. exists v. repeat split.
        intros H0. rewrite H0 in E. unfold Qc_eq_bool in E.
        destruct (Qc_eq_dec 0 0); [discriminate | congruence].
      * intros (v' & Hv & Hne & ->). injection Hv as <-. reflexivity.
  - split; [discriminate|]. intros (v' & Hv & _). discriminate.
Qed.

Lemma load_chars_succeeds face printable n self :
  (exists self', load_font face printable n self = (self', None))
  <-> Forall (loadable face n) printable.
Proof.
  unfold load_font. revert self.
  induction printable as [|c rest IH]; intros self; cbn [load_chars].
  - split; [constructor | eauto].
  - destruct (load_char face n self c) as [self1 [err|]] eqn:E.
    + split.
      * intros [self' H]. discriminate.
      * intros HF. inversion HF as [|? ? [[v Hv] Hne] ?]; subst.
        assert (Hd : load_char face n self c = (_, None))
          by (apply load_char_done; eauto).
        rewrite Hd in E. discriminate.
    + rewrite IH. apply load_char_done in E. destruct E as (v & Hv & Hne & _).
      split.
      * intros HF. constructor; [split; eauto | exact HF].
      * intros HF. inversion HF. assumption.
Qed.

(** X18.  [load_font] completes without an exception exactly when,
    for every character it loads, the glyph traces without an exception and
    the vertical advance is not zero. *)
Theorem load_font_succeeds_iff face printable n self :
  (exists self', load_font face printable n self = (self', None))
  <-> Forall (loadable face n) printable.
Proof. exact (load_chars_succeeds face printable n self). Qed.

Lemma load_chars_lookup face printable n self self' :
  load_font face printable n self = (self', None) ->
  forall c,
    (In c printable ->
     exists v,
       glyph2vertices (slot_glyph (face c)) n = Ok v
       /\ dict_get (traced_vertices self') c = Some v
       /\ get_char_lines self' c = vertices2lines v
       /\ get_char_advance self' c
          = inl ((advance_x (face c)
                  / vertAdvance (metrics (slot_glyph (face c))))%Qc, 1%Qc))
    /\ (~ In c printable ->
        dict_get (traced_vertices self') c = dict_get (traced_vertices self) c
        /\ dict_get (traced_lines self') c = dict_get (traced_lines self) c
        /\ dict_get (glyphs_advances self') c = dict_get (glyphs_advances self) c).
Proof.
  unfold load_font. revert self.
  induction printable as [|c0 rest IH]; intros self H c; cbn [load_chars] in H.
  - injection H as <-. split; [intros []|]. auto.
  - destruct (load_char face n self c0) as [self1 [err|]] eqn:E; [discriminate|].
    apply load_char_done in E. destruct E as (v0 & Hv0 & Hne0 & ->).
    destruct (IH _ H c) as [Hin Hout]. split.
    + intros Hc. destruct (in_dec Ascii.ascii_dec c rest) as [Hr|Hr]; [auto|].
      destruct Hc as [->|Hc]; [|contradiction].
      destruct (Hout Hr) as (H1 & H2 & H3). cbn [traced_vertices traced_lines glyphs_advances] in *.
      exists v0. unfold get_char_lines, get_char_advance.
      rewrite H1, H2, H3, !dict_get_set_same. auto.
    + intros Hc. cbn [In] in Hc.
      assert (Hne : c0 <> c) by tauto. assert (Hr : ~ In c rest) by tauto.
      destruct (Hout Hr) as (H1 & H2 & H3). cbn [traced_vertices traced_lines glyphs_advances] in *.
      rewrite H1, H2, H3, !dict_get_set_other by exact Hne. auto.
Qed.

(** X19.  After a [load_font] that completed, every loaded character
    maps to the traced vertices of its glyph, to the lines of those vertices
    and to the advance [(advance.x / vertAdvance, 1)]; the entries of every
    other character are what they were before the call. *)
Theorem load_font_lookup face printable n self self' :
  load_font face printable n self = (self', None) ->
  forall c,
    (In c printable ->
     exists v,
       glyph2vertices (slot_glyph (face c)) n = Ok v
       /\ dict_get (traced_vertices self') c = Some v
       /\ get_char_lines self' c = vertices2lines v
       /\ get_char_advance self' c
          = inl ((advance_x (face c)
                  / vertAdvance (metrics (slot_glyph (face c))))%Qc, 1%Qc))
    /\ (~ In c printable ->
        dict_get (traced_vertices self') c = dict_get (traced_vertices self) c
        /\ dict_get (traced_lines self') c = dict_get (traced_lines self) c
        /\ dict_get (glyphs_advances self') c = dict_get (glyphs_advances self) c).
Proof. exact (load_chars_lookup face printable n self self'). Qed.

Lemma load_font_lookup_witness :
  exists v,
    glyph2vertices (slot_glyph (demo_face letter_a)) 5 = Ok v
    /\ dict_get (traced_vertices demo_tracer) letter_a = Some v
    /\ get_char_lines demo_tracer letter_a = vertices2lines v
    /\ get_char_advance demo_tracer letter_a
       = inl ((advance_x (demo_face letter_a)
               / vertAdvance (metrics (slot_glyph (demo_face letter_a))))%Qc,
              1%Qc).
Proof.
  apply (proj1 (load_font_lookup _ _ _ _ _ demo_tracer_loaded letter_a)).
  left. reflexivity.
Defined.

Lemma concat_reshape_flat cs :
  concat (map reshape_flat cs) = reshape_flat (concat cs).
Proof.
  induction cs as [|c cs IH]; cbn [map concat]; [reflexivity|].
  rewrite IH, reshape_flat_app. reflexivity.
Qed.

Lemma Forall_rows_map (out : list (list Qc)) :
  Forall (fun contour => exists pts, contour = reshape_flat pts) out ->
  exists cs, out = map reshape_flat cs.
Proof.
  induction 1 as [|c out [pts ->] _ [cs ->]]; [exists []; reflexivity|].
  exists (pts :: cs). reflexivity.
Qed.

Lemma Qc_of_nat_double_half k : (Qc_of_nat (2 * k) / Qc_of_nat 2)%Qc = Qc_of_nat k.
Proof.
  replace (2 * k)%nat with (k + k)%nat by lia. rewrite Qc_of_nat_plus.
  assert (H2 := Qc_2_neq0). rewrite Qc_of_nat_2 in *. field. exact H2.
Qed.

(** X21.  After loading a font into a fresh tracer, for every
    character: the vertices are a whole number of points,
    [get_char_n_vertices] is that number of points, and the lines hold four
    scalars (one segment) per point.  A character that was not loaded has no
    vertices and no lines, and asking for its advance raises [KeyError]. *)
Theorem fresh_tracer_counts face printable n self' :
  load_font face printable n FontTracer_init = (self', None) ->
  forall c,
    exists pts,
      get_char_vertices self' c = reshape_flat pts
      /\ get_char_n_vertices self' c = Qc_of_nat (length pts)
      /\ length (get_char_lines self' c) = (4 * length pts)%nat
      /\ (~ In c printable ->
          pts = [] /\ get_char_advance self' c = inr (KeyError c)).
Proof.
  intros H c. destruct (load_chars_lookup _ _ _ _ _ H c) as [Hin Hout].
  assert (Hv : forall pts, get_char_vertices self' c = reshape_flat pts ->
               get_char_n_vertices self' c = Qc_of_nat (length pts)).
  { intros pts E. unfold get_char_n_vertices. rewrite E, reshape_flat_length.
    apply Qc_of_nat_double_half. }
  destruct (in_dec Ascii.ascii_dec c printable) as [Hc|Hc].
  - destruct (Hin Hc) as (v & Hg & Hd & Hl & _).
    destruct (Forall_rows_map _ (glyph2vertices_rows _ _ _ Hg)) as [cs ->].
    exists (concat cs).
    assert (E : get_char_vertices self' c = reshape_flat (concat cs)).
    { unfold get_char_vertices. rewrite Hd.
      destruct (0 <? len (map reshape_flat cs)) eqn:El.
      - apply concat_reshape_flat.
      - destruct cs; [reflexivity|]. unfold len in El. cbn [map length] in El.
        apply Z.ltb_ge in El. lia. }
    repeat split; auto.
    + rewrite Hl. apply lines_of_points_length.
    + contradiction.
    + contradiction.
  - destruct (Hout Hc) as (H1 & H2 & H3). cbn in H1, H2, H3.
    exists []. assert (E : get_char_vertices self' c = reshape_flat []).
    { unfold get_char_vertices. rewrite H1. reflexivity. }
    repeat split; auto.
    + unfold get_char_lines. rewrite H2. reflexivity.
    + unfold get_char_advance. rewrite H3. reflexivity.
Qed.

Lemma fresh_tracer_counts_witness :
  exists pts,
    get_char_vertices demo_tracer letter_b = reshape_flat pts
    /\ get_char_n_vertices demo_tracer letter_b = Qc_of_nat (length pts)
    /\ length (get_char_lines demo_tracer letter_b) = (4 * length pts)%nat
    /\ (~ In letter_b demo_printable ->
        pts = [] /\ get_char_advance demo_tracer letter_b = inr (KeyError letter_b)).
Proof. exact (fresh_tracer_counts _ _ _ _ demo_tracer_loaded letter_b). Defined.

(* ================================================================== *)
(** * The tracer: [plot] *)

Lemma range_step4_in_range stop i :
  In i (range_step4 stop) -> Z.of_nat i + 3 < stop + 3.
Proof.
  unfold range_step4. intros H. apply in_map_iff in H. destruct H as (k & <- & Hk).
  apply in_seq in Hk.
  assert (Hq : 0 < (stop + 3) / 4) by lia.
  assert (Hd := Z.mul_div_le (stop + 3) 4 ltac:(lia)). lia.
Qed.

Lemma range_step4_cons n :
  range_step4 (Z.of_nat (4 + n) - 3)
  = 0%nat :: map (fun i => (4 + i)%nat) (range_step4 (Z.of_nat n - 3)).
Proof.
  unfold range_step4.
  replace ((Z.of_nat (4 + n) - 3 + 3) / 4) with (1 + (Z.of_nat n - 3 + 3) / 4).
  2:{ replace (Z.of_nat (4 + n) - 3 + 3) with (1 * 4 + (Z.of_nat n - 3 + 3)) by lia.
      rewrite Z.div_add_l by lia. reflexivity. }
  assert (H0 : 0 <= (Z.of_nat n - 3 + 3) / 4) by (apply Z.div_pos; lia).
  rewrite Z2Nat.inj_add by lia. change (Z.to_nat 1) with 1%nat.
  cbn [Nat.add seq map]. f_equal. rewrite <- seq_shift, !map_map.
  apply map_ext. intros k. lia.
Qed.

Lemma draw_lines_quad a b c d rest px py :
  draw_lines (a :: b :: c :: d :: rest) px py
  = ([(a + px)%Qc; (c + px)%Qc], [(b + py)%Qc; (d + py)%Qc])
    :: draw_lines rest px py.
Proof.
  unfold draw_lines, len.
  change (length (a :: b :: c :: d :: rest)) with (4 + length rest)%nat.
  rewrite range_step4_cons. cbn [map nth Nat.add]. f_equal.
  rewrite map_map. apply map_ext. intros i. reflexivity.
Qed.

Lemma draw_lines_short lines px py :
  (length lines < 4)%nat -> draw_lines lines px py = [].
Proof.
  intros H. unfold draw_lines, range_step4, len.
  assert (E : (Z.of_nat (length lines) - 3 + 3) / 4 = 0)
    by (apply Z.div_small; lia).
  rewrite E. reflexivity.
Qed.

Lemma draw_lines_points px py : forall l,
  draw_lines (reshape_flat l) px py = segment_calls px py l.
Proof.
  fix IH 1. intros [|[ax ay] [|[bx by_] rest]].
  - reflexivity.
  - apply draw_lines_short. cbn. lia.
  - cbn [reshape_flat segment_calls fst snd]. rewrite draw_lines_quad, IH. reflexivity.
Qed.

(** X22.  The inner loop of [plot] makes one [axis.plot] call per
    complete group of four scalars of the line buffer, reading the group as
    [(x1, y1, x2, y2)] and adding the pen position; every subscript is within
    the buffer, and up to three trailing scalars are ignored. *)
Theorem draw_lines_reads_quadruples lines px py :
  length (draw_lines lines px py) = (length lines / 4)%nat
  /\ forall k, (k < length lines / 4)%nat ->
       (4 * k + 3 < length lines)%nat
       /\ nth_error (draw_lines lines px py) k
          = Some ([(nth (4 * k) lines 0 + px)%Qc; (nth (4 * k + 2) lines 0 + px)%Qc],
                  [(nth (4 * k + 1) lines 0 + py)%Qc; (nth (4 * k + 3) lines 0 + py)%Qc]).
Proof.
  assert (Hn : Z.to_nat ((len lines - 3 + 3) / 4) = (length lines / 4)%nat).
  { unfold len. replace (Z.of_nat (length lines) - 3 + 3) with (Z.of_nat (length lines)) by lia.
    change 4 with (Z.of_nat 4). rewrite <- Nat2Z.inj_div, Nat2Z.id. reflexivity. }
  unfold draw_lines, range_step4. rewrite Hn. split.
  - rewrite !length_map, length_seq. reflexivity.
  - intros k Hk. split.
    + assert (H := Nat.Div0.mul_div_le (length lines) 4). lia.
    + rewrite map_map, nth_error_map, nth_error_seq.
      destruct (Nat.ltb_spec k (length lines / 4)); [|lia]. reflexivity.
Qed.

Lemma plot_loop_error self glyphs : forall st,
  snd (plot_loop self glyphs st)
  = match find (fun c => negb (has_advance self c)) glyphs with
    | Some c => Some (KeyError c)
    | None => None
    end.
Proof.
  induction glyphs as [|c rest IH]; intros st; cbn [plot_loop find]; [reflexivity|].
  unfold get_char_y_advance, get_char_x_advance, get_char_advance, has_advance.
  destruct (dict_get (glyphs_advances self) c) as [[dx dy]|]; cbn [negb fst snd].
  - destruct (Ascii.eqb c newline); apply IH.
  - destruct (Ascii.eqb c newline); reflexivity.
Qed.

(** X23.  [plot] raises [KeyError] for the first character of the
    text, newline included, that has no entry in [glyphs_advances], and raises
    nothing when every character has one. *)
Theorem plot_raises_at_first_unloaded self glyphs :
  snd (plot self glyphs)
  = match find (fun c => negb (has_advance self c)) glyphs with
    | Some c => Some (KeyError c)
    | None => None
    end.
Proof. unfold plot. cbn [snd]. apply plot_loop_error. Qed.


(** X25.  After a [load_font] that completed, plotting a loaded
    character other than newline draws every segment of every closed contour
    of its traced glyph, moved by the pen position, then moves the pen right by
    the character's advance; plotting a loaded newline draws nothing, puts the
    pen back at x = 0 and lowers it by 1. *)
Theorem plot_loaded_char face printable n self self' c st :
  load_font face printable n self = (self', None) ->
  In c printable ->
  (c = newline ->
   plot_loop self' [c] st
   = (mkPlotState 0 (pos_y st - 1)%Qc (drawn st), None))
  /\ (c <> newline ->
      exists cs,
        glyph2vertices (slot_glyph (face c)) n = Ok (map reshape_flat cs)
        /\ plot_loop self' [c] st
           = (mkPlotState
                (pos_x st + advance_x (face c)
                            / vertAdvance (metrics (slot_glyph (face c))))%Qc
                (pos_y st)
                (drawn st
                 ++ segment_calls (pos_x st) (pos_y st)
                      (flat_map closed_segments cs)),
              None)).
Proof.
  intros Hload Hc.
  destruct (proj1 (load_chars_lookup _ _ _ _ _ Hload c) Hc) as (v & Hg & _ & Hl & Ha).
  split.
  - intros ->. cbn [plot_loop]. rewrite Ascii.eqb_refl.
    unfold get_char_y_advance. rewrite Ha. reflexivity.
  - intros Hne. destruct (Forall_rows_map _ (glyph2vertices_rows _ _ _ Hg)) as [cs ->].
    exists cs. split; [exact Hg|]. cbn [plot_loop].
    destruct (Ascii.eqb_spec c newline) as [E|_]; [contradiction|].
    unfold get_char_x_advance. rewrite Ha, Hl. cbn [fst pos_x pos_y drawn].
    rewrite vertices2lines_flat_map.
    assert (E : flat_map contour_lines (map reshape_flat cs)
                = reshape_flat (flat_map closed_segments cs)).
    { clear. induction cs as [|pts cs IH]; [reflexivity|].
      cbn [map flat_map]. rewrite IH, contour_lines_points, reshape_flat_app.
      reflexivity. }
    rewrite E, draw_lines_points. reflexivity.
Qed.

Lemma plot_loaded_char_witness :
  plot_loop demo_tracer [newline] (mkPlotState 0 0 [])
  = (mkPlotState 0 (0 - 1)%Qc [], None).
Proof.
  apply (proj1 (plot_loaded_char demo_face demo_printable 5 FontTracer_init
                  demo_tracer newline (mkPlotState 0 0 [])
                  demo_tracer_loaded ltac:(right; left; reflexivity))).
  reflexivity.
Defined.

(* ================================================================== *)
(** * The tracer: a [load_font] that stops *)

Lemma load_chars_app face n a b : forall self,
  load_chars face n (a ++ b) self
  = match load_chars face n a self with
    | (self', None) => load_chars face n b self'
    | stopped => stopped
    end.
Proof.
  induction a as [|c a IH]; intros self; cbn [app load_chars]; [reflexivity|].
  destruct (load_char face n self c) as [self1 [err|]]; [reflexivity | apply IH].
Qed.

(** X20.  When every character before [c] loads and tracing the glyph
    of [c] raises [e], [load_font] stops at [c] with that exception and the
    object holds exactly what loading the characters before [c] stores.  When
    the glyph of [c] traces but its vertical advance is zero, [load_font] stops
    with [ZeroDivisionError]. *)
Theorem load_font_stops face n before c after self :
  Forall (loadable face n) before ->
  (forall e, glyph2vertices (slot_glyph (face c)) n = Raise e ->
     load_font face (before ++ c :: after) n self
     = (fst (load_font face before n self), Some (TraceError e)))
  /\ ((exists v, glyph2vertices (slot_glyph (face c)) n = Ok v) ->
      vertAdvance (metrics (slot_glyph (face c))) = 0%Qc ->
      snd (load_font face (before ++ c :: after) n self) = Some ZeroDivisionError).
Proof.
  intros HF. unfold load_font. rewrite load_chars_app.
  destruct (proj2 (load_chars_succeeds face before n self) HF) as [self1 H1].
  unfold load_font in H1. rewrite H1. cbn [fst load_chars]. split.
  - intros e He. unfold load_char. rewrite He. reflexivity.
  - intros [v Hv] H0. unfold load_char. rewrite Hv, H0. reflexivity.
Qed.

Lemma load_font_stops_witness :
  load_font broken_face ([letter_a] ++ letter_b :: [newline]) 5 FontTracer_init
  = (fst (load_font broken_face [letter_a] 5 FontTracer_init),
     Some (TraceError (ValueError 1 FT_Curve_Tag_Cubic))).
Proof.
  apply (proj1 (load_font_stops broken_face 5 [letter_a] letter_b [newline]
                  FontTracer_init
                  ltac:(constructor;
                        [split; [eexists; reflexivity
                                | apply (Qc_of_nat_neq0 2); lia]
                        | constructor]))).
  reflexivity.
Defined.

